(** * lock_toys: counting keys under MACS and EN 1303 style constraints

    A shallow embedding of [macs_differs.py] and the properties of its three
    counting functions:
    - [count_keys]                  transfer matrix, adjacency (MACS) only;
    - [brute]                       exhaustive enumeration with the predicate [good];
    - [count_keys_macs_and_en1303]  level-by-level search over (frequencies, last two cuts).

    Python integers are [Z]; tuples are lists; [dict] and [defaultdict] are
    [gmap]s; a raised exception is the [Raise] branch of [result].  The
    [print] calls are not modelled; the progress bars are kept only as far
    as they are bound and counted, since [pbar2] is read after the loop. *)

From Stdlib Require Import ZArith List Lia.
From stdpp Require Import gmap list fin_maps.

Local Open Scope Z_scope.

(** ** Exceptions and results *)

Inductive exn : Type :=
  | ValueError
  | TypeError
  | IndexError
  | KeyError
  | OverflowError
  | UnboundLocalError.

Inductive result (A : Type) : Type :=
  | Return (a : A)
  | Raise (e : exn).
Arguments Return {A} a.
Arguments Raise {A} e.

#[global] Instance result_ret : MRet result := @Return.
#[global] Instance result_bind : MBind result :=
  fun A B f m => match m with Return a => f a | Raise e => Raise e end.

(** A [for] loop whose body may raise: the accumulator is threaded left to
    right and the first exception ends the loop. *)
Fixpoint for_each {S A : Type} (body : S -> A -> result S) (s : S) (l : list A)
  : result S :=
  match l with
  | [] => Return s
  | x :: l' => s' ← body s x; for_each body s' l'
  end.

(** A loop of the shape [for x in l: if c(x): return False]: [Return true]
    when some [c x] holds, and nothing after the first such [x] is evaluated. *)
Fixpoint first_true {A : Type} (c : A -> result bool) (l : list A) : result bool :=
  match l with
  | [] => Return false
  | x :: l' => b ← c x; if b : bool then Return true else first_true c l'
  end.

(** ** Python built-ins used by the source *)

(** [range(d)]: empty when [d <= 0]. *)
Definition range (d : Z) : list Z := seqZ 0 d.

(** [sum(l)]: starts from 0 and adds from the left. *)
Definition pysum (l : list Z) : Z := foldl Z.add 0 l.

(** [t[i]] on a tuple: a negative index counts from the end, an index out
    of range raises [IndexError]. *)
Definition getitem {A : Type} (t : list A) (i : Z) : result A :=
  let j := if i <? 0 then i + Z.of_nat (length t) else i in
  if j <? 0 then Raise IndexError
  else match t !! Z.to_nat j with
       | Some x => Return x
       | None => Raise IndexError
       end.

(** The bound of a slice, clipped as Python does. *)
Definition slice_bound {A : Type} (t : list A) (b : Z) : nat :=
  Z.to_nat (if b <? 0 then Z.max 0 (b + Z.of_nat (length t)) else b).

(** [t[:b]] and [t[b:]]. *)
Definition slice_to {A : Type} (t : list A) (b : Z) : list A :=
  take (slice_bound t b) t.
Definition slice_from {A : Type} (t : list A) (b : Z) : list A :=
  drop (slice_bound t b) t.

(** [d[k]] on a plain [dict]: [KeyError] when the key is absent. *)
Definition dict_get `{Countable K} {V : Type} (m : gmap K V) (k : K) : result V :=
  match m !! k with
  | Some v => Return v
  | None => Raise KeyError
  end.

(** [d[k]] read on a [defaultdict(int)]: 0 when the key is absent. *)
Definition dd_get `{Countable K} (m : gmap K Z) (k : K) : Z :=
  default 0 (m !! k).

(** [d[k] += w] on a [defaultdict(int)]. *)
Definition dd_add `{Countable K} (k : K) (w : Z) (m : gmap K Z) : gmap K Z :=
  <[k := dd_get m k + w]> m.

(** [d.values()], summed or scanned; the order of a [gmap] is immaterial
    for both uses below. *)
Definition values `{Countable K} {V : Type} (m : gmap K V) : list V :=
  (map_to_list m).*2.

(** The integer [n] as a float: the nearest integer with 53 significant
    bits, a tie going to the even one. *)
Definition nearest_double (n : Z) : Z :=
  let a := Z.abs n in
  if a <? 2 ^ 53 then n else
  let k := Z.log2 a - 52 in
  let q := a / 2 ^ k in
  let r := a mod 2 ^ k in
  let up := (2 ^ (k - 1) <? r) || ((r =? 2 ^ (k - 1)) && Z.odd q) in
  Z.sgn n * ((if up then q + 1 else q) * 2 ^ k).

(** [n / 2], the true division of two integers: the float nearest to the
    quotient, or [OverflowError] when that is beyond the floats.  Halving
    is exact on floats, so the result is returned as its double, an
    integer. *)
Definition true_div_2 (n : Z) : result Z :=
  let m := nearest_double n in
  if 2 ^ 1025 <=? Z.abs m then Raise OverflowError else Return m.

(** [f > n / 2]: the quotient is a float, and the integer [f] is compared
    with it exactly. *)
Definition more_than_half (f n : Z) : result bool :=
  m ← true_div_2 n; Return (m <? 2 * f).

(** [itertools.product(pool, repeat=r)]: the first coordinate varies slowest. *)
Fixpoint product (pool : list Z) (r : nat) : list (list Z) :=
  match r with
  | O => [[]]
  | S r' => x ← pool; t ← product pool r'; [x :: t]
  end.

(** ** [brute] *)

(** The nested predicate [good(t)] of [brute]. *)
Definition good (n macs : Z) (t : list Z) : result bool :=
  freqs ← for_each (fun freqs i => x ← getitem t i; Return (dd_add x 1 freqs))
                   (∅ : gmap Z Z) (range n);
  over ← first_true (fun f => more_than_half f n) (values freqs);
  if over : bool then Return false else
  far ← first_true (fun i => a ← getitem t i; b ← getitem t (i + 1);
                             Return (macs <? Z.abs (a - b)))
                   (range (n - 1));
  if far : bool then Return false else
  triple ← first_true (fun i => a ← getitem t i; b ← getitem t (i + 1);
                                c ← getitem t (i + 2);
                                Return (bool_decide (a = b) && bool_decide (b = c)))
                      (range (n - 2));
  if triple : bool then Return false else
  Return true.

(** [sum(1 for t in z if good(t))]. *)
Definition count_good (n macs : Z) (z : list (list Z)) : result Z :=
  for_each (fun acc t => g ← good n macs t;
                         Return (if g : bool then acc + 1 else acc)) 0 z.

(** [brute(n, d, macs)].  [product] refuses a negative [repeat]. *)
Definition brute (n d macs : Z) : result Z :=
  if n <? 0 then Raise ValueError
  else count_good n macs (product (range d) (Z.to_nat n)).

(** ** [count_keys] *)

(** A numpy array of Python objects, by rows. *)
Abbreviation matrix := (list (list Z)).

(** [M[i, j]] for indices in range. *)
Definition entry (M : matrix) (i j : Z) : Z :=
  nth (Z.to_nat j) (nth (Z.to_nat i) M []) 0.

(** [np.fromfunction(f, (rows, cols))]. *)
Definition fromfunction (f : Z -> Z -> Z) (shape : Z * Z) : matrix :=
  (fun i => f i <$> range shape.2) <$> range shape.1.

(** [np.eye(d)]. *)
Definition eye (d : Z) : matrix :=
  fromfunction (fun i j => if i =? j then 1 else 0) (d, d).

(** [np.dot] on two [d] by [d] object arrays:
    entry (i, j) is the sum over l of [X[i, l] * Y[l, j]]. *)
Definition dot (d : Z) (X Y : matrix) : matrix :=
  fromfunction (fun i j => pysum ((fun l => entry X i l * entry Y l j) <$> range d))
               (d, d).

(** The powers of a [d] by [d] matrix, [A^(k+1) = A^k @ A]. *)
Fixpoint matrix_pow (d : Z) (M : matrix) (k : nat) : matrix :=
  match k with
  | O => eye d
  | S k' => dot d (matrix_pow d M k') M
  end.

(** [np.linalg.matrix_power(M, k)] on an object array.  A negative [k]
    asks for [inv], which numpy has not for object arrays. *)
Definition matrix_power (d : Z) (M : matrix) (k : Z) : result matrix :=
  if k <? 0 then Raise TypeError else Return (matrix_pow d M (Z.to_nat k)).

(** [M.sum()]. *)
Definition matrix_sum (M : matrix) : Z := pysum (concat M).

(** The matrix [A] of [count_keys]; [True] and [False] are the integers 1
    and 0.  numpy compares the float index arrays with [macs]: for indices
    below 2^53 and a [macs] within the floats that is the comparison of the
    integers. *)
Definition adjacency_matrix (bitting_depths macs : Z) : matrix :=
  fromfunction (fun i j => Z.b2z (Z.abs (i - j) <=? macs))
               (bitting_depths, bitting_depths).

(** [count_keys(bitting_positions, bitting_depths, macs)].  A negative
    shape is refused by [np.fromfunction]. *)
Definition count_keys (bitting_positions bitting_depths macs : Z) : result Z :=
  if bitting_positions =? 0 then Return 1 else
  if bitting_depths <? 0 then Raise ValueError else
  P ← matrix_power bitting_depths (adjacency_matrix bitting_depths macs)
                   (bitting_positions - 1);
  Return (matrix_sum P).

(** ** [count_keys_macs_and_en1303] *)

(** A state: the table of frequencies and the last two cuts ([None] while
    there are fewer than two). *)
Abbreviation state := (list Z * (option Z * option Z))%type.

(** [initial_state = ((0,) * d, (None, None))]. *)
Definition initial_state (d : Z) : state :=
  (replicate (Z.to_nat d) 0, (None, None)).

(** The generator [neighbors(state)], as the list of the states it yields. *)
Definition neighbors (n d macs : Z) (st : state) : result (list state) :=
  let '(freqs, (d1, d2)) := st in
  if bool_decide (pysum freqs = n) then Return [] else
  for_each (fun out b =>
      if bool_decide (d1 = d2) && bool_decide (d2 = Some b) then Return out else
      if match d2 with Some c => macs <? Z.abs (c - b) | None => false end
      then Return out else
      fb ← getitem freqs b;
      over ← more_than_half (fb + 1) n;
      if over : bool then Return out else
      let next_freqs := slice_to freqs b ++ [fb + 1] ++ slice_from freqs (b + 1) in
      Return (out ++ [(next_freqs, (d2, Some b))]))
    [] (range d).

(** The tables of the level under construction. *)
Record frontier : Type := Frontier {
  new_q : list nat;
  new_state_to_id : gmap state nat;
  new_id_to_state : gmap nat state;
  new_paths : gmap nat Z
}.

Definition empty_frontier : frontier :=
  {| new_q := []; new_state_to_id := ∅; new_id_to_state := ∅; new_paths := ∅ |}.

(** The body of [for v in neighbors(u)], where [w] is [paths[u_id]]. *)
Definition visit (w : Z) (F : frontier) (v : state) : frontier :=
  match new_state_to_id F !! v with
  | None =>
      let v_id := size (new_state_to_id F) in
      {| new_q := new_q F ++ [v_id];
         new_state_to_id := <[v := v_id]> (new_state_to_id F);
         new_id_to_state := <[v_id := v]> (new_id_to_state F);
         new_paths := dd_add v_id w (new_paths F) |}
  | Some v_id =>
      {| new_q := new_q F;
         new_state_to_id := new_state_to_id F;
         new_id_to_state := new_id_to_state F;
         new_paths := dd_add v_id w (new_paths F) |}
  end.

(** A progress bar: its total and the number of [update] calls. *)
Record tqdm : Type := Tqdm { total : Z; n_done : Z }.

Definition update (p : tqdm) : tqdm :=
  {| total := total p; n_done := n_done p + 1 |}.

(** The local variables that live across the iterations of the outer loop;
    [pbar2] is unbound until the loop body has run once. *)
Record locals : Type := Locals {
  q : list nat;
  id_to_state : gmap nat state;
  paths : gmap nat Z;
  pbar1 : tqdm;
  pbar2 : option tqdm
}.

(** The body of [while q], once [u_id] is popped. *)
Definition search_step (n d macs : Z) (L : locals) (F : frontier) (u_id : nat)
  : result frontier :=
  u ← dict_get (id_to_state L) u_id;
  vs ← neighbors n d macs u;
  Return (foldl (visit (dd_get (paths L) u_id)) F vs).

(** The loop [while q: u_id = q.pop() ...]: the queue is emptied from its
    end. *)
Definition search (n d macs : Z) (L : locals) : result frontier :=
  for_each (search_step n d macs L) empty_frontier (reverse (q L)).

(** One iteration of [for i in range(n)]. *)
Definition level (n d macs : Z) (L : locals) (i : Z) : result locals :=
  F ← search n d macs L;
  Return {| q := new_q F;
            id_to_state := new_id_to_state F;
            paths := new_paths F;
            pbar1 := update (pbar1 L);
            pbar2 := Some {| total := Z.of_nat (length (q L));
                             n_done := Z.of_nat (length (q L)) |} |}.

Definition initial_locals (n d : Z) : locals :=
  {| q := [0%nat];
     id_to_state := {[ 0%nat := initial_state d ]};
     paths := {[ 0%nat := 1 ]};
     pbar1 := {| total := n; n_done := 0 |};
     pbar2 := None |}.

(** The locals after the first [k] iterations of the outer loop. *)
Definition levels (n d macs : Z) (k : Z) : result locals :=
  for_each (level n d macs) (initial_locals n d) (range k).

(** [count_keys_macs_and_en1303(n, d, macs)]: the loop, then
    [pbar2.close()], then [sum(paths.values())]. *)
Definition count_keys_macs_and_en1303 (n d macs : Z) : result Z :=
  L ← levels n d macs n;
  match pbar2 L with
  | None => Raise UnboundLocalError
  | Some _ => Return (pysum (values (paths L)))
  end.

(** ** The properties, in the words of the specification *)

(** The number of elements of [l] that satisfy [P]. *)
Definition count_if {A : Type} (P : A -> bool) (l : list A) : Z :=
  Z.of_nat (length (filter (fun x => P x) l)).

(** The frequency of the depth [c] in [t]. *)
Definition freq (c : Z) (t : list Z) : Z := count_if (fun x => bool_decide (x = c)) t.

(** (a) no depth occurs more than [n / 2] times. *)
Definition freq_ok (n : Z) (t : list Z) : bool :=
  forallb (fun c => 2 * freq c t <=? n) t.

(** (b) every adjacent pair differs by at most [macs]. *)
Fixpoint macs_ok (macs : Z) (t : list Z) : bool :=
  match t with
  | a :: r => match r with
              | b :: _ => (Z.abs (a - b) <=? macs) && macs_ok macs r
              | [] => true
              end
  | [] => true
  end.

(** (c) no three consecutive equal depths. *)
Fixpoint no_triple (t : list Z) : bool :=
  match t with
  | a :: r => match r with
              | b :: c :: _ =>
                  negb (bool_decide (a = b) && bool_decide (b = c)) && no_triple r
              | _ => true
              end
  | [] => true
  end.

(** The whole-sequence predicate of the oracle. *)
Definition valid (n macs : Z) (t : list Z) : bool :=
  freq_ok n t && macs_ok macs t && no_triple t.

(** The number of valid sequences of length [n] over [d] depths. *)
Definition count_valid (n d macs : Z) : Z :=
  count_if (valid n macs) (product (range d) (Z.to_nat n)).

(** The number of sequences that meet the adjacency constraint alone. *)
Definition count_macs (n d macs : Z) : Z :=
  count_if (macs_ok macs) (product (range d) (Z.to_nat n)).

(** Sequences that start at depth [i] and end at depth [j]. *)
Definition from_to (i j : Z) (t : list Z) : bool :=
  bool_decide (head t = Some i) && bool_decide (last t = Some j).

(** The number of length-[n] sequences from [i] to [j] that meet the
    adjacency constraint. *)
Definition count_macs_from_to (n d macs i j : Z) : Z :=
  count_if (fun t => from_to i j t && macs_ok macs t)
           (product (range d) (Z.to_nat n)).

(** [f > n / 2] as a comparison of real numbers. *)
Definition over_half (f n : Z) : bool := n <? 2 * f.

(** The transition rule, rule by rule: [b] may follow a key in state [st]. *)
Definition admissible (n macs : Z) (st : state) (b : Z) : bool :=
  let '(freqs, (d1, d2)) := st in
  negb (bool_decide (d1 = d2) && bool_decide (d2 = Some b))
  && negb (match d2 with Some c => macs <? Z.abs (c - b) | None => false end)
  && negb (over_half (nth (Z.to_nat b) freqs 0 + 1) n).

(** The state reached by adding the cut [b]. *)
Definition successor (st : state) (b : Z) : state :=
  let '(freqs, (d1, d2)) := st in
  (<[Z.to_nat b := nth (Z.to_nat b) freqs 0 + 1]> freqs, (d2, Some b)).

(** The successors of a state of a key shorter than [n]. *)
Definition transitions (n d macs : Z) (st : state) : list state :=
  if bool_decide (pysum st.1 = n) then []
  else successor st <$> filter (fun b => admissible n macs st b) (range d).

(** The number of ways to add [k] cuts to a key in state [st]. *)
Fixpoint paths_from (n d macs : Z) (k : nat) (st : state) : Z :=
  match k with
  | O => 1
  | S k' => pysum (paths_from n d macs k' <$> transitions n d macs st)
  end.

(** The state of a key [p]: its frequencies and its last two cuts. *)
Definition last_two (p : list Z) : option Z * option Z :=
  match reverse p with
  | [] => (None, None)
  | [b] => (None, Some b)
  | b :: a :: _ => (Some a, Some b)
  end.

Definition state_of (d : Z) (p : list Z) : state :=
  ((fun c => freq c p) <$> range d, last_two p).

(** The cut [b] may be added at the end of the key [p]: the three checks
    of the oracle, on the one position that is new. *)
Definition step_ok (n macs : Z) (p : list Z) (b : Z) : bool :=
  (2 * (freq b p + 1) <=? n)
  && match (last_two p).2 with
     | Some c => Z.abs (c - b) <=? macs
     | None => true
     end
  && negb (bool_decide ((last_two p).1 = (last_two p).2)
           && bool_decide ((last_two p).2 = Some b)).

(** A level of the search as a table: its states in order of their ids,
    each with its number of paths. *)
Abbreviation table := (list (state * Z)).

(** The total of a table, each state weighted by [f]. *)
Definition weight (f : state -> Z) (T : table) : Z :=
  pysum ((fun sw => sw.2 * f sw.1) <$> T).

(** The tables under construction hold [T]. *)
Record frontier_rep (F : frontier) (T : table) : Prop := FrontierRep {
  rep_q : new_q F = seq 0 (length T);
  rep_ids : forall v k, new_state_to_id F !! v = Some k <-> T.*1 !! k = Some v;
  rep_size : size (new_state_to_id F) = length T;
  rep_states : new_id_to_state F = map_seq 0 T.*1;
  rep_paths : new_paths F = map_seq 0 T.*2
}.

(** The locals hold the table [T]. *)
Record locals_rep (L : locals) (T : table) : Prop := LocalsRep {
  lrep_q : q L = seq 0 (length T);
  lrep_states : id_to_state L = map_seq 0 T.*1;
  lrep_paths : paths L = map_seq 0 T.*2
}.

(** What holds of every state of a key of length [k]. *)
Definition state_inv (n d : Z) (k : Z) (st : state) : Prop :=
  length st.1 = Z.to_nat d /\ pysum st.1 = k /\
  Forall (fun f => 0 <= f /\ 2 * f <= n) st.1.

(** The parameters outside the documented domain. *)
Definition invalid_parameter (n d macs : Z) : Prop := n < 0 \/ d < 1 \/ macs < 0.

(** The call hands an integer back. *)
Definition returns_integer (r : result Z) : Prop := exists z, r = Return z.

(** The frequencies [good] collects: one [+= 1] per cut, from the left. *)
Definition tally (t : list Z) : gmap Z Z :=
  foldl (fun freqs x => dd_add x 1 freqs) ∅ t.

(** The last cut of a state, when there is one, is a depth of [range(d)]. *)
Definition last_in_range (d : Z) (st : state) : Prop :=
  match st.2.2 with
  | Some c => 0 <= c < d
  | None => True
  end.

(** 1 on the state [s], 0 on every other state. *)
Definition state_is (s v : state) : Z := if bool_decide (v = s) then 1 else 0.

(** The sum of [f] over the states of the valid keys of length [k]. *)
Definition prefix_sum (n d macs : Z) (k : nat) (f : state -> Z) : Z :=
  pysum ((fun p => if valid n macs p then f (state_of d p) else 0)
           <$> product (range d) k).

(** ** Sums and loops *)

Lemma foldl_add (a : Z) (l : list Z) : foldl Z.add a l = a + pysum l.
Proof.
  unfold pysum. revert a. induction l as [|x l IH]; intros a; simpl; [lia|].
  rewrite (IH (a + x)), (IH (0 + x)). lia.
Qed.

Lemma pysum_nil : pysum [] = 0.
Proof. reflexivity. Qed.

Lemma pysum_cons (x : Z) (l : list Z) : pysum (x :: l) = x + pysum l.
Proof. unfold pysum at 1. simpl. rewrite foldl_add. lia. Qed.

Lemma pysum_app (l1 l2 : list Z) : pysum (l1 ++ l2) = pysum l1 + pysum l2.
Proof.
  induction l1 as [|x l1 IH]; simpl; [rewrite pysum_nil; lia|].
  rewrite !pysum_cons, IH. lia.
Qed.

Lemma pysum_perm (l1 l2 : list Z) : l1 ≡ₚ l2 -> pysum l1 = pysum l2.
Proof.
  induction 1 as [|x l1 l2 _ IH|x y l|l1 l2 l3 _ IH1 _ IH2];
    rewrite ?pysum_cons; lia.
Qed.

Lemma pysum_reverse (l : list Z) : pysum (reverse l) = pysum l.
Proof. apply pysum_perm, reverse_Permutation. Qed.

Lemma pysum_zero (l : list Z) : Forall (fun x => x = 0) l -> pysum l = 0.
Proof.
  induction 1 as [|x l -> _ IH]; [done|]. rewrite pysum_cons, IH. done.
Qed.

Lemma pysum_replicate (k : nat) (x : Z) : pysum (replicate k x) = Z.of_nat k * x.
Proof.
  induction k as [|k IH]; [done|]. simpl replicate. rewrite pysum_cons, IH. lia.
Qed.

Lemma pysum_le (l1 l2 : list Z) : Forall2 Z.le l1 l2 -> pysum l1 <= pysum l2.
Proof.
  induction 1; rewrite ?pysum_cons; [done|lia].
Qed.

Lemma pysum_insert (l : list Z) (i : nat) (x y : Z) :
  l !! i = Some x -> pysum (<[i := y]> l) = pysum l - x + y.
Proof.
  intros Hi. rewrite <- (take_drop_middle l i x Hi) at 2.
  rewrite insert_take_drop by (by eapply lookup_lt_Some).
  rewrite !pysum_app, !pysum_cons. lia.
Qed.

Lemma bind_Return {A B : Type} (x : A) (f : A -> result B) : Return x ≫= f = f x.
Proof. reflexivity. Qed.

Lemma for_each_cons {S A : Type} (body : S -> A -> result S) (s : S) (x : A)
    (l : list A) :
  for_each body s (x :: l) = s' ← body s x; for_each body s' l.
Proof. reflexivity. Qed.

Lemma for_each_app {S A : Type} (body : S -> A -> result S) (s : S) (l1 l2 : list A) :
  for_each body s (l1 ++ l2) = s' ← for_each body s l1; for_each body s' l2.
Proof.
  revert s. induction l1 as [|x l1 IH]; intros s; simpl; [done|].
  destruct (body s x); simpl; [apply IH|done].
Qed.

Lemma for_each_pure {S A : Type} (body : S -> A -> result S) (g : S -> A -> S)
    (l : list A) (s : S) :
  (forall s' x, x ∈ l -> body s' x = Return (g s' x)) ->
  for_each body s l = Return (foldl g s l).
Proof.
  revert s. induction l as [|x l IH]; intros s Hb; simpl; [done|].
  rewrite Hb by left. simpl. apply IH. intros. apply Hb. by right.
Qed.

Lemma first_true_pure {A : Type} (c : A -> result bool) (g : A -> bool) (l : list A) :
  (forall x, x ∈ l -> c x = Return (g x)) ->
  first_true c l = Return (existsb g l).
Proof.
  induction l as [|x l IH]; intros Hc; simpl; [done|].
  rewrite Hc by left. simpl. destruct (g x); simpl; [done|].
  apply IH. intros. apply Hc. by right.
Qed.

(** ** Indexing *)

Lemma getitem_lookup {A : Type} (t : list A) (i : nat) (x : A) :
  t !! i = Some x -> getitem t (Z.of_nat i) = Return x.
Proof.
  intros Hi. unfold getitem.
  destruct (Z.ltb_spec (Z.of_nat i) 0) as [?|_]; [lia|].
  destruct (Z.ltb_spec (Z.of_nat i) 0) as [?|_]; [lia|].
  by rewrite Nat2Z.id, Hi.
Qed.

Lemma range_nat (k : nat) : range (Z.of_nat k) = Z.of_nat <$> seq 0 k.
Proof.
  unfold range, seqZ. rewrite Nat2Z.id. apply list_fmap_ext.
  intros _ i _. lia.
Qed.

Lemma range_to_nat (k : Z) : range k = Z.of_nat <$> seq 0 (Z.to_nat k).
Proof.
  unfold range, seqZ. apply list_fmap_ext. intros _ i _. lia.
Qed.

Lemma elem_of_range (d b : Z) : b ∈ range d <-> 0 <= b < d.
Proof. unfold range. rewrite elem_of_seqZ. lia. Qed.

Lemma range_S (k : nat) : range (Z.of_nat (S k)) = range (Z.of_nat k) ++ [Z.of_nat k].
Proof. rewrite !range_nat, seq_S, fmap_app. done. Qed.

Lemma fmap_nth_seq (t : list Z) : (fun i => nth i t 0) <$> seq 0 (length t) = t.
Proof.
  apply list_eq. intros i. rewrite list_lookup_fmap.
  destruct (decide (i < length t)%nat) as [Hlt|Hge].
  - rewrite lookup_seq_lt by done. simpl.
    destruct (lookup_lt_is_Some_2 t i Hlt) as [x Hx]. rewrite Hx.
    f_equal. by apply nth_lookup_Some.
  - rewrite lookup_seq_ge by lia. simpl. symmetry. apply lookup_ge_None. lia.
Qed.

(** ** Counting *)

Lemma count_if_nil {A : Type} (P : A -> bool) : count_if P [] = 0.
Proof. reflexivity. Qed.

Lemma count_if_cons {A : Type} (P : A -> bool) (x : A) (l : list A) :
  count_if P (x :: l) = (if P x then 1 else 0) + count_if P l.
Proof.
  unfold count_if. rewrite filter_cons. cbv beta.
  destruct (P x); simpl; lia.
Qed.

Lemma count_if_app {A : Type} (P : A -> bool) (l1 l2 : list A) :
  count_if P (l1 ++ l2) = count_if P l1 + count_if P l2.
Proof.
  induction l1 as [|x l1 IH]; simpl; [rewrite count_if_nil; lia|].
  rewrite !count_if_cons, IH. lia.
Qed.

Lemma count_if_nonneg {A : Type} (P : A -> bool) (l : list A) : 0 <= count_if P l.
Proof. unfold count_if. lia. Qed.

Lemma count_if_ext {A : Type} (P Q : A -> bool) (l : list A) :
  (forall x, x ∈ l -> P x = Q x) -> count_if P l = count_if Q l.
Proof.
  induction l as [|x l IH]; intros HPQ; [done|].
  rewrite !count_if_cons, IH, HPQ; [done|by left|].
  intros. apply HPQ. by right.
Qed.

Lemma count_if_mono {A : Type} (P Q : A -> bool) (l : list A) :
  (forall x, x ∈ l -> P x = true -> Q x = true) -> count_if P l <= count_if Q l.
Proof.
  induction l as [|x l IH]; intros HPQ; [done|].
  rewrite !count_if_cons.
  assert (count_if P l <= count_if Q l) by (apply IH; intros; apply HPQ; [by right|done]).
  destruct (P x) eqn:HP; [rewrite (HPQ x) by (done || by left); lia|].
  destruct (Q x); lia.
Qed.

Lemma count_if_false {A : Type} (P : A -> bool) (l : list A) :
  (forall x, x ∈ l -> P x = false) -> count_if P l = 0.
Proof.
  induction l as [|x l IH]; intros HP; [done|].
  rewrite count_if_cons, IH, HP; [done|by left|].
  intros. apply HP. by right.
Qed.

Lemma count_if_fmap {A B : Type} (f : A -> B) (P : B -> bool) (l : list A) :
  count_if P (f <$> l) = count_if (fun x => P (f x)) l.
Proof.
  induction l as [|x l IH]; [done|].
  rewrite fmap_cons, !count_if_cons, IH. done.
Qed.

Lemma count_if_bind {A B : Type} (f : A -> list B) (P : B -> bool) (l : list A) :
  count_if P (l ≫= f) = pysum ((fun x => count_if P (f x)) <$> l).
Proof.
  induction l as [|x l IH]; [done|].
  rewrite bind_cons, count_if_app, fmap_cons, pysum_cons, IH. done.
Qed.

Lemma count_if_perm {A : Type} (P : A -> bool) (l1 l2 : list A) :
  l1 ≡ₚ l2 -> count_if P l1 = count_if P l2.
Proof. intros Hp. unfold count_if. by rewrite Hp. Qed.

Lemma freq_nil (c : Z) : freq c [] = 0.
Proof. reflexivity. Qed.

Lemma freq_cons (c x : Z) (t : list Z) :
  freq c (x :: t) = (if bool_decide (x = c) then 1 else 0) + freq c t.
Proof. unfold freq. by rewrite count_if_cons. Qed.

Lemma freq_app (c : Z) (t1 t2 : list Z) : freq c (t1 ++ t2) = freq c t1 + freq c t2.
Proof. apply count_if_app. Qed.

Lemma freq_snoc (c x : Z) (t : list Z) :
  freq c (t ++ [x]) = freq c t + (if bool_decide (x = c) then 1 else 0).
Proof. rewrite freq_app, freq_cons, freq_nil. lia. Qed.

Lemma freq_nonneg (c : Z) (t : list Z) : 0 <= freq c t.
Proof. apply count_if_nonneg. Qed.

Lemma freq_pos (c : Z) (t : list Z) : c ∈ t <-> 0 < freq c t.
Proof.
  induction t as [|x t IH].
  - rewrite freq_nil. split; [by intros ?%elem_of_nil|lia].
  - rewrite freq_cons, elem_of_cons, IH. pose proof (freq_nonneg c t).
    case_bool_decide; (split; [intros [?|?]|intros ?]);
      try lia; try congruence; try (by left); right; lia.
Qed.

(** ** The predicate [good] is the predicate [valid] *)

Lemma for_each_fmap {S A B : Type} (f : A -> B) (body : S -> B -> result S)
    (s : S) (l : list A) :
  for_each body s (f <$> l) = for_each (fun s x => body s (f x)) s l.
Proof.
  revert s. induction l as [|x l IH]; intros s; simpl; [done|].
  destruct (body s (f x)); simpl; [apply IH|done].
Qed.

Lemma first_true_fmap {A B : Type} (f : A -> B) (c : B -> result bool) (l : list A) :
  first_true c (f <$> l) = first_true (fun x => c (f x)) l.
Proof.
  induction l as [|x l IH]; simpl; [done|].
  destruct (c (f x)) as [[]|]; simpl; [done|apply IH|done].
Qed.

Lemma existsb_fmap {A B : Type} (f : A -> B) (g : B -> bool) (l : list A) :
  existsb g (f <$> l) = existsb (fun x => g (f x)) l.
Proof. induction l as [|x l IH]; simpl; [done|]. f_equal. apply IH. Qed.

Lemma existsb_seq_S (h : nat -> bool) (m : nat) :
  existsb h (seq 0 (S m)) = h 0%nat || existsb (fun i => h (S i)) (seq 0 m).
Proof. rewrite <- cons_seq, <- fmap_S_seq. simpl. by rewrite existsb_fmap. Qed.

Lemma dd_add_lookup (m : gmap Z Z) (x c w : Z) :
  dd_add x w m !! c = if decide (x = c) then Some (dd_get m x + w) else m !! c.
Proof.
  unfold dd_add. case_decide as Hx.
  - subst. apply lookup_insert_eq.
  - by apply lookup_insert_ne.
Qed.

Lemma tally_snoc (t : list Z) (x : Z) : tally (t ++ [x]) = dd_add x 1 (tally t).
Proof. unfold tally. by rewrite foldl_snoc. Qed.

Lemma tally_lookup (t : list Z) (c : Z) :
  tally t !! c = if decide (c ∈ t) then Some (freq c t) else None.
Proof.
  induction t as [|x t IH] using rev_ind.
  - rewrite decide_False by apply not_elem_of_nil. done.
  - rewrite tally_snoc, dd_add_lookup, freq_snoc. unfold dd_get.
    destruct (decide (x = c)) as [->|Hne].
    + rewrite IH. rewrite bool_decide_eq_true_2 by done.
      rewrite (decide_True (P := c ∈ t ++ [c])) by (apply elem_of_app; right; by left).
      case_decide as Hc; simpl; [done|].
      f_equal. pose proof (freq_nonneg c t).
      assert (~ 0 < freq c t) by (by rewrite <- freq_pos). lia.
    + rewrite IH. rewrite bool_decide_eq_false_2 by done. rewrite Z.add_0_r.
      destruct (decide (c ∈ t)) as [Hc|Hc].
      * rewrite decide_True by (apply elem_of_app; by left). done.
      * rewrite decide_False; [done|].
        rewrite elem_of_app, list_elem_of_singleton. intros [?|?]; [done|congruence].
Qed.

Lemma freq_ok_spec (n : Z) (t : list Z) :
  freq_ok n t = true <-> forall c, c ∈ t -> 2 * freq c t <= n.
Proof.
  unfold freq_ok. rewrite forallb_forall. split.
  - intros H c Hc. apply Z.leb_le, H. by apply list_elem_of_In.
  - intros H c Hc. apply Z.leb_le, H. by apply list_elem_of_In.
Qed.

Lemma nearest_double_exact (n : Z) : Z.abs n <= 2 ^ 53 -> nearest_double n = n.
Proof.
  intros Hn. unfold nearest_double.
  destruct (Z.ltb_spec (Z.abs n) (2 ^ 53)) as [_|Hge]; [done|].
  assert (Z.abs n = 2 ^ 53) as Habs by lia.
  destruct (Z.abs_eq_or_opp n) as [Hs|Hs]; rewrite Hs in Habs.
  - rewrite Habs. by vm_compute.
  - assert (n = - 2 ^ 53) as -> by lia. by vm_compute.
Qed.

Lemma true_div_2_exact (n : Z) : Z.abs n <= 2 ^ 53 -> true_div_2 n = Return n.
Proof.
  intros Hn. unfold true_div_2. rewrite nearest_double_exact by done.
  destruct (Z.leb_spec (2 ^ 1025) (Z.abs n)) as [Hbig|_]; [|done].
  assert (2 ^ 53 < 2 ^ 1025) by (by vm_compute). lia.
Qed.

(** Up to 2^53 the float test is the comparison of real numbers. *)
Lemma more_than_half_exact (f n : Z) :
  Z.abs n <= 2 ^ 53 -> more_than_half f n = Return (over_half f n).
Proof. intros Hn. unfold more_than_half. by rewrite true_div_2_exact. Qed.

Lemma tally_over_half (n : Z) (t : list Z) :
  existsb (fun f => over_half f n) (values (tally t)) = negb (freq_ok n t).
Proof.
  destruct (freq_ok n t) eqn:Hok; simpl.
  - apply not_true_is_false. intros (f & Hf & Hm)%existsb_exists.
    apply list_elem_of_In in Hf. unfold values in Hf.
    apply list_elem_of_fmap in Hf as ([c f'] & -> & Hcf).
    apply elem_of_map_to_list in Hcf. rewrite tally_lookup in Hcf.
    case_decide as Hc; [|done]. injection Hcf as <-.
    apply Z.ltb_lt in Hm. simpl in Hm.
    pose proof (proj1 (freq_ok_spec n t) Hok c Hc). lia.
  - apply not_true_iff_false in Hok. apply existsb_exists.
    destruct (decide (Forall (fun c => 2 * freq c t <= n) t)) as [Hall|Hex].
    { exfalso. apply Hok, freq_ok_spec. intros c Hc.
      by apply (proj1 (Forall_forall _ _) Hall). }
    apply not_Forall_Exists in Hex; [|solve_decision].
    apply Exists_exists in Hex as (c & Hc & Hgt).
    exists (freq c t). split.
    + apply list_elem_of_In. unfold values. apply list_elem_of_fmap.
      exists (c, freq c t). split; [done|].
      apply elem_of_map_to_list. rewrite tally_lookup. by rewrite decide_True.
    + apply Z.ltb_lt. simpl in Hgt. lia.
Qed.

Lemma far_apart_index (macs : Z) (t : list Z) :
  existsb (fun i => macs <? Z.abs (nth i t 0 - nth (S i) t 0)) (seq 0 (length t - 1))
  = negb (macs_ok macs t).
Proof.
  induction t as [|a r IH]; [done|].
  destruct r as [|b r']; [done|].
  replace (length (a :: b :: r') - 1)%nat with (S (length (b :: r') - 1))
    by (simpl; lia).
  rewrite existsb_seq_S.
  etransitivity; [apply (f_equal (orb _)); exact IH|]. simpl nth.
  change (macs_ok macs (a :: b :: r'))
    with ((Z.abs (a - b) <=? macs) && macs_ok macs (b :: r')).
  rewrite negb_andb. f_equal. rewrite Z.leb_antisym. by rewrite negb_involutive.
Qed.

Lemma triple_index (t : list Z) :
  existsb (fun i => bool_decide (nth i t 0 = nth (S i) t 0)
                    && bool_decide (nth (S i) t 0 = nth (S (S i)) t 0))
          (seq 0 (length t - 2))
  = negb (no_triple t).
Proof.
  induction t as [|a r IH]; [done|].
  destruct r as [|b [|c r']]; [done|done|].
  replace (length (a :: b :: c :: r') - 2)%nat with (S (length (b :: c :: r') - 2))
    by (simpl; lia).
  rewrite existsb_seq_S.
  etransitivity; [apply (f_equal (orb _)); exact IH|]. simpl nth.
  change (no_triple (a :: b :: c :: r'))
    with (negb (bool_decide (a = b) && bool_decide (b = c)) && no_triple (b :: c :: r')).
  rewrite negb_andb. by rewrite negb_involutive.
Qed.

Lemma getitem_nth (t : list Z) (i : nat) :
  (i < length t)%nat -> getitem t (Z.of_nat i) = Return (nth i t 0).
Proof.
  intros Hi. destruct (lookup_lt_is_Some_2 t i Hi) as [x Hx].
  rewrite (getitem_lookup t i x Hx). f_equal. symmetry. by apply nth_lookup_Some.
Qed.

Lemma tally_loop (t : list Z) :
  for_each (fun freqs i => x ← getitem t i; Return (dd_add x 1 freqs))
           (∅ : gmap Z Z) (range (Z.of_nat (length t)))
  = Return (tally t).
Proof.
  rewrite range_nat, for_each_fmap.
  rewrite (for_each_pure _ (fun m i => dd_add (nth i t 0) 1 m)).
  - rewrite <- (foldl_fmap (fun m x => dd_add x 1 m) ∅ (seq 0 (length t))
                           (fun i => nth i t 0)).
    by rewrite fmap_nth_seq.
  - intros m i Hi%elem_of_seq. rewrite getitem_nth by lia. done.
Qed.

Lemma far_apart_loop (macs : Z) (t : list Z) :
  first_true (fun i => a ← getitem t i; b ← getitem t (i + 1);
                       Return (macs <? Z.abs (a - b)))
             (range (Z.of_nat (length t) - 1))
  = Return (negb (macs_ok macs t)).
Proof.
  rewrite range_to_nat, first_true_fmap.
  replace (Z.to_nat (Z.of_nat (length t) - 1)) with (length t - 1)%nat by lia.
  rewrite <- far_apart_index. apply first_true_pure.
  intros i Hi%elem_of_seq. rewrite getitem_nth by lia.
  replace (Z.of_nat i + 1) with (Z.of_nat (S i)) by lia.
  rewrite getitem_nth by lia. done.
Qed.

Lemma triple_loop (t : list Z) :
  first_true (fun i => a ← getitem t i; b ← getitem t (i + 1);
                       c ← getitem t (i + 2);
                       Return (bool_decide (a = b) && bool_decide (b = c)))
             (range (Z.of_nat (length t) - 2))
  = Return (negb (no_triple t)).
Proof.
  rewrite range_to_nat, first_true_fmap.
  replace (Z.to_nat (Z.of_nat (length t) - 2)) with (length t - 2)%nat by lia.
  rewrite <- triple_index. apply first_true_pure.
  intros i Hi%elem_of_seq. rewrite getitem_nth by lia.
  replace (Z.of_nat i + 1) with (Z.of_nat (S i)) by lia.
  replace (Z.of_nat i + 2) with (Z.of_nat (S (S i))) by lia.
  rewrite !getitem_nth by lia. done.
Qed.

Lemma tally_more_than_half (n : Z) (t : list Z) :
  Z.abs n <= 2 ^ 53 ->
  first_true (fun f => more_than_half f n) (values (tally t))
  = Return (negb (freq_ok n t)).
Proof.
  intros Hn. rewrite <- tally_over_half. apply first_true_pure.
  intros f _. by apply more_than_half_exact.
Qed.

Lemma good_valid (n macs : Z) (t : list Z) :
  Z.of_nat (length t) = n -> n <= 2 ^ 53 ->
  good n macs t = Return (valid n macs t).
Proof.
  intros <- Hn. unfold good, valid.
  rewrite tally_loop, far_apart_loop, triple_loop.
  rewrite bind_Return, tally_more_than_half by lia.
  change (Return ?x ≫= ?f) with (f x). cbv beta.
  destruct (freq_ok (Z.of_nat (length t)) t); simpl; [|done].
  destruct (macs_ok macs t); simpl; [|done].
  by destruct (no_triple t).
Qed.

Lemma length_product (pool : list Z) (r : nat) (t : list Z) :
  t ∈ product pool r -> length t = r.
Proof.
  revert t. induction r as [|r IH]; intros t; simpl.
  - by intros ->%list_elem_of_singleton.
  - intros (x & Ht & _)%list_elem_of_bind.
    apply list_elem_of_bind in Ht as (t' & ->%list_elem_of_singleton & Ht').
    simpl. f_equal. by apply IH.
Qed.

Lemma Forall_product (pool : list Z) (r : nat) (t : list Z) :
  t ∈ product pool r -> Forall (fun x => x ∈ pool) t.
Proof.
  revert t. induction r as [|r IH]; intros t; simpl.
  - by intros ->%list_elem_of_singleton.
  - intros (x & Ht & Hx)%list_elem_of_bind.
    apply list_elem_of_bind in Ht as (t' & ->%list_elem_of_singleton & Ht').
    constructor; [done|by apply IH].
Qed.

Lemma count_good_valid (n macs : Z) (z : list (list Z)) :
  n <= 2 ^ 53 ->
  Forall (fun t => Z.of_nat (length t) = n) z ->
  count_good n macs z = Return (count_if (valid n macs) z).
Proof.
  intros Hn Hz. unfold count_good.
  rewrite (for_each_pure _ (fun acc t => if valid n macs t then acc + 1 else acc)).
  - f_equal. rewrite <- (Z.add_0_l (count_if _ _)). generalize 0.
    induction z as [|t z IH]; intros a; simpl; [rewrite count_if_nil; lia|].
    rewrite count_if_cons, IH by (by inversion Hz). destruct (valid n macs t); lia.
  - intros acc t Ht. rewrite good_valid; [done| |done].
    by apply (proj1 (Forall_forall _ _) Hz).
Qed.

(** [brute] counts the valid sequences. *)
Lemma brute_count_valid (n d macs : Z) :
  0 <= n -> n <= 2 ^ 53 -> brute n d macs = Return (count_valid n d macs).
Proof.
  intros Hn Hn'. unfold brute. destruct (Z.ltb_spec n 0) as [?|_]; [lia|].
  apply count_good_valid; [done|]. apply Forall_forall.
  intros t Ht%length_product. lia.
Qed.

(** ** Tables and their weights *)

Lemma values_map_seq (ws : list Z) :
  pysum (values (map_seq 0 ws : gmap nat Z)) = pysum ws.
Proof.
  unfold values. rewrite (pysum_perm _ ((zip (seq 0 (length ws)) ws).*2)).
  - by rewrite snd_zip by (by rewrite length_seq).
  - apply fmap_Permutation, map_to_list_seq.
Qed.

Lemma weight_nil (f : state -> Z) : weight f [] = 0.
Proof. reflexivity. Qed.

Lemma weight_cons (f : state -> Z) (s : state) (w : Z) (T : table) :
  weight f ((s, w) :: T) = w * f s + weight f T.
Proof. unfold weight. by rewrite fmap_cons, pysum_cons. Qed.

Lemma weight_app (f : state -> Z) (T1 T2 : table) :
  weight f (T1 ++ T2) = weight f T1 + weight f T2.
Proof. unfold weight. by rewrite fmap_app, pysum_app. Qed.

Lemma weight_insert (f : state -> Z) (T : table) (k : nat) (s : state) (w w' : Z) :
  T !! k = Some (s, w) ->
  weight f (<[k := (s, w')]> T) = weight f T + (w' - w) * f s.
Proof.
  intros Hk. unfold weight. rewrite list_fmap_insert.
  rewrite (pysum_insert _ k (w * f s)).
  - simpl. lia.
  - rewrite list_lookup_fmap, Hk. done.
Qed.

Lemma weight_ones (T : table) : weight (fun _ => 1) T = pysum T.*2.
Proof.
  unfold weight. f_equal. apply list_fmap_ext. intros _ [s w] _. simpl. lia.
Qed.

Lemma weight_ext (f g : state -> Z) (T : table) :
  (forall s, s ∈ T.*1 -> f s = g s) -> weight f T = weight g T.
Proof.
  intros Hfg. unfold weight. f_equal. apply list_fmap_ext.
  intros i [s w] Hi. simpl. rewrite Hfg; [done|].
  apply list_elem_of_fmap. exists (s, w). split; [done|].
  by eapply list_elem_of_lookup_2.
Qed.

(** ** One visit *)

Lemma visit_rep (w : Z) (F : frontier) (T : table) (v : state) :
  frontier_rep F T ->
  exists T', frontier_rep (visit w F v) T'
    /\ (forall f, weight f T' = weight f T + w * f v)
    /\ (forall s, s ∈ T'.*1 <-> s ∈ T.*1 \/ s = v).
Proof.
  intros [Hq Hids Hsize Hst Hp]. unfold visit.
  destruct (new_state_to_id F !! v) as [k|] eqn:Hv.
  - pose proof (proj1 (Hids v k) Hv) as Hk.
    apply list_lookup_fmap_Some in Hk as ([v' wk] & Hv' & Hk).
    simpl in Hv'. subst v'.
    assert (Hlt : (k < length T)%nat) by (by eapply lookup_lt_Some).
    assert (Hfst : (<[k := (v, wk + w)]> T).*1 = T.*1).
    { rewrite list_fmap_insert. apply list_insert_id.
      by rewrite list_lookup_fmap, Hk. }
    exists (<[k := (v, wk + w)]> T). split; [|split].
    + constructor; simpl; rewrite ?length_insert, ?Hfst; try done.
      rewrite Hp. unfold dd_add, dd_get.
      rewrite lookup_map_seq_0, list_lookup_fmap, Hk. simpl.
      rewrite list_fmap_insert. simpl.
      by rewrite insert_map_seq_0 by (by rewrite length_fmap).
    + intros f. rewrite (weight_insert f T k v wk) by done. lia.
    + intros s. rewrite Hfst. split; [by left|].
      intros [?| ->]; [done|]. apply list_elem_of_fmap.
      exists (v, wk). split; [done|]. by eapply list_elem_of_lookup_2.
  - assert (Hnew : v ∉ T.*1).
    { intros (k & Hk)%list_elem_of_lookup. apply Hids in Hk. congruence. }
    exists (T ++ [(v, w)]). split; [|split].
    + constructor; simpl; rewrite ?length_app, ?fmap_app; simpl.
      * rewrite Nat.add_1_r, seq_S, Hq, Hsize. done.
      * intros v' k. rewrite Hsize.
        destruct (decide (v = v')) as [<-|Hne].
        -- rewrite lookup_insert_eq. split.
           ++ intros [= <-]. rewrite lookup_app_r by (by rewrite length_fmap).
              by rewrite length_fmap, Nat.sub_diag.
           ++ intros Hk. f_equal.
              destruct (decide (k < length T)%nat) as [Hlt|Hge].
              ** rewrite lookup_app_l in Hk by (by rewrite length_fmap).
                 exfalso. apply Hnew. by eapply list_elem_of_lookup_2.
              ** apply lookup_lt_Some in Hk.
                 rewrite length_app, length_fmap in Hk. simpl in Hk. lia.
        -- rewrite lookup_insert_ne by done. rewrite Hids. split.
           ++ intros Hk. by apply lookup_app_l_Some.
           ++ intros Hk. apply lookup_app_Some in Hk as [Hk|[_ Hk]]; [done|].
              apply list_lookup_singleton_Some in Hk as [_ ?]. done.
      * rewrite map_size_insert_None by done. lia.
      * rewrite map_seq_snoc, Hst, Hsize, length_fmap. done.
      * rewrite Hp, map_seq_snoc, Hsize. unfold dd_add, dd_get.
        rewrite lookup_map_seq_0, length_fmap.
        rewrite (lookup_ge_None_2 T.*2) by (by rewrite length_fmap). done.
    + intros f. rewrite weight_app, weight_cons, weight_nil. lia.
    + intros s. rewrite fmap_app, elem_of_app. simpl.
      rewrite list_elem_of_singleton. done.
Qed.

Lemma foldl_visit_rep (w : Z) (vs : list state) (F : frontier) (T : table) :
  frontier_rep F T ->
  exists T', frontier_rep (foldl (visit w) F vs) T'
    /\ (forall f, weight f T' = weight f T + w * pysum (f <$> vs))
    /\ (forall s, s ∈ T'.*1 <-> s ∈ T.*1 \/ s ∈ vs).
Proof.
  revert F T. induction vs as [|v vs IH]; intros F T HF.
  - exists T. split; [done|]. split.
    + intros f. simpl. rewrite pysum_nil. lia.
    + intros s. rewrite elem_of_nil. tauto.
  - destruct (visit_rep w F T v HF) as (T1 & HF1 & Hw1 & Hs1).
    destruct (IH _ _ HF1) as (T2 & HF2 & Hw2 & Hs2).
    exists T2. split; [done|]. split.
    + intros f. rewrite Hw2, Hw1, fmap_cons, pysum_cons. lia.
    + intros s. rewrite Hs2, Hs1, elem_of_cons. tauto.
Qed.

Lemma empty_frontier_rep : frontier_rep empty_frontier [].
Proof.
  constructor; simpl; done.
Qed.

(** ** The generator [neighbors] yields the transitions *)

Lemma slice_insert (freqs : list Z) (b x : Z) :
  0 <= b < Z.of_nat (length freqs) ->
  slice_to freqs b ++ [x] ++ slice_from freqs (b + 1) = <[Z.to_nat b := x]> freqs.
Proof.
  intros Hb. unfold slice_to, slice_from, slice_bound.
  destruct (Z.ltb_spec b 0) as [?|_]; [lia|].
  destruct (Z.ltb_spec (b + 1) 0) as [?|_]; [lia|].
  replace (Z.to_nat (b + 1)) with (S (Z.to_nat b)) by lia.
  symmetry. apply insert_take_drop. lia.
Qed.

Lemma filter_bool_cons {A : Type} (P : A -> bool) (x : A) (l : list A) :
  filter (fun y => P y) (x :: l)
  = if P x then x :: filter (fun y => P y) l else filter (fun y => P y) l.
Proof. rewrite filter_cons. cbv beta. by destruct (P x). Qed.

Lemma neighbors_loop (n macs : Z) (freqs : list Z) (d1 d2 : option Z)
    (l : list Z) (out : list state) :
  Z.abs n <= 2 ^ 53 ->
  Forall (fun b => 0 <= b < Z.of_nat (length freqs)) l ->
  for_each (fun out b =>
      if bool_decide (d1 = d2) && bool_decide (d2 = Some b) then Return out else
      if match d2 with Some c => macs <? Z.abs (c - b) | None => false end
      then Return out else
      fb ← getitem freqs b;
      over ← more_than_half (fb + 1) n;
      if over : bool then Return out else
      let next_freqs := slice_to freqs b ++ [fb + 1] ++ slice_from freqs (b + 1) in
      Return (out ++ [(next_freqs, (d2, Some b))]))
    out l
  = Return (out ++ (successor (freqs, (d1, d2))
                      <$> filter (fun b => admissible n macs (freqs, (d1, d2)) b) l)).
Proof.
  intros Hn Hl. revert out. induction Hl as [|b l Hb _ IH]; intros out.
  - simpl. by rewrite app_nil_r.
  - rewrite for_each_cons.
    rewrite (filter_bool_cons (admissible n macs (freqs, (d1, d2)))).
    unfold admissible at 1.
    destruct (bool_decide (d1 = d2) && bool_decide (d2 = Some b)); simpl.
    { apply IH. }
    destruct (match d2 with Some c => macs <? Z.abs (c - b) | None => false end); simpl.
    { apply IH. }
    rewrite <- (Z2Nat.id b) at 1 by lia. rewrite getitem_nth by lia.
    rewrite bind_Return, more_than_half_exact, bind_Return by done.
    destruct (over_half (nth (Z.to_nat b) freqs 0 + 1) n); simpl.
    { apply IH. }
    rewrite IH, <- app_assoc. simpl. do 4 f_equal.
    by apply (slice_insert freqs b).
Qed.

Lemma neighbors_transitions (n d macs : Z) (st : state) :
  Z.abs n <= 2 ^ 53 ->
  length st.1 = Z.to_nat d ->
  neighbors n d macs st = Return (transitions n d macs st).
Proof.
  destruct st as [freqs [d1 d2]]. simpl. intros Hn Hlen.
  unfold neighbors, transitions. simpl. case_bool_decide; [done|].
  rewrite neighbors_loop; [done|done|].
  apply Forall_forall. intros b Hb%elem_of_range. lia.
Qed.

(** ** What the transitions keep *)

Lemma transitions_inv (n d macs k : Z) (u s : state) :
  state_inv n d k u -> s ∈ transitions n d macs u -> state_inv n d (k + 1) s.
Proof.
  destruct u as [freqs [d1 d2]]. intros (Hlen & Hsum & Hall). simpl in *.
  unfold transitions. simpl. case_bool_decide; [by intros ?%elem_of_nil|].
  intros (b & -> & Hb)%list_elem_of_fmap.
  apply list_elem_of_filter in Hb as [Hadm Hb%elem_of_range].
  assert (Hlt : (Z.to_nat b < length freqs)%nat) by lia.
  destruct (lookup_lt_is_Some_2 _ _ Hlt) as [fb Hfb].
  unfold admissible, successor, state_inv in *.
  cbn beta iota delta [fst snd] in *.
  rewrite (nth_lookup_Some _ _ 0 _ Hfb) in *.
  apply andb_prop_elim in Hadm as [_ Hhalf].
  apply negb_prop_elim in Hhalf. unfold over_half in Hhalf.
  rewrite Is_true_true, Z.ltb_lt in Hhalf.
  pose proof (proj1 (Forall_lookup _ _) Hall _ _ Hfb) as [? ?].
  repeat split.
  - by rewrite length_insert.
  - rewrite (pysum_insert _ _ fb) by done. lia.
  - apply Forall_insert; [done|]. lia.
Qed.

(** ** One level of the search *)

Lemma locals_lookup (L : locals) (T : table) (i : nat) (u : state) (w : Z) :
  locals_rep L T -> T !! i = Some (u, w) ->
  dict_get (id_to_state L) i = Return u /\ dd_get (paths L) i = w.
Proof.
  intros [_ Hst Hp] Hi. unfold dict_get, dd_get.
  rewrite Hst, Hp, !lookup_map_seq_0, !list_lookup_fmap, Hi. done.
Qed.

Lemma search_loop (n d macs k : Z) (L : locals) (T : table) (ids : list nat)
    (F0 : frontier) (T0 : table) :
  Z.abs n <= 2 ^ 53 ->
  locals_rep L T ->
  Forall (state_inv n d k) T.*1 ->
  Forall (fun i => (i < length T)%nat) ids ->
  frontier_rep F0 T0 ->
  exists F' T',
    for_each (search_step n d macs L) F0 ids = Return F'
    /\ frontier_rep F' T'
    /\ (forall f, weight f T' = weight f T0
          + pysum ((fun i => match T !! i with
                             | Some (u, w) => w * pysum (f <$> transitions n d macs u)
                             | None => 0
                             end) <$> ids))
    /\ (forall s, s ∈ T'.*1 ->
          s ∈ T0.*1 \/ exists u, u ∈ T.*1 /\ s ∈ transitions n d macs u).
Proof.
  intros Hx HL Hinv Hids. revert F0 T0.
  induction Hids as [|i ids Hi _ IH]; intros F0 T0 HF0.
  - exists F0, T0. split; [done|]. split; [done|]. split.
    + intros f. simpl. rewrite pysum_nil. lia.
    + intros s Hs. by left.
  - destruct (lookup_lt_is_Some_2 _ _ Hi) as [[u w] Hu].
    destruct (locals_lookup L T i u w HL Hu) as [Hget Hw].
    assert (Hin : u ∈ T.*1).
    { apply list_elem_of_fmap. exists (u, w). split; [done|].
      by eapply list_elem_of_lookup_2. }
    pose proof (proj1 (Forall_forall _ _) Hinv u Hin) as (Hlen & _).
    destruct (foldl_visit_rep w (transitions n d macs u) F0 T0 HF0)
      as (T1 & HF1 & Hw1 & Hs1).
    destruct (IH _ _ HF1) as (F' & T' & Hrun & HF' & Hw' & Hs').
    exists F', T'. split; [|split; [done|split]].
    + rewrite for_each_cons.
      replace (search_step n d macs L F0 i)
        with (Return (foldl (visit w) F0 (transitions n d macs u))); [done|].
      unfold search_step.
      rewrite Hget, Hw, bind_Return.
      by rewrite (neighbors_transitions n d macs u Hx Hlen).
    + intros f. rewrite Hw', Hw1, fmap_cons, pysum_cons, Hu. lia.
    + intros s Hs. destruct (Hs' s Hs) as [Hs0|?]; [|by right].
      apply Hs1 in Hs0 as [?|?]; [by left|]. right. by exists u.
Qed.

Lemma fmap_lookup_seq {B : Type} (T : table) (h : option (state * Z) -> B) :
  (fun i => h (T !! i)) <$> seq 0 (length T) = (fun x => h (Some x)) <$> T.
Proof.
  apply list_eq. intros i. rewrite !list_lookup_fmap.
  destruct (T !! i) as [x|] eqn:Hx; simpl.
  - rewrite lookup_seq_lt by (by eapply lookup_lt_Some). simpl. by rewrite Hx.
  - rewrite lookup_seq_ge; [done|]. by apply lookup_ge_None.
Qed.

Lemma search_rep (n d macs k : Z) (L : locals) (T : table) :
  Z.abs n <= 2 ^ 53 ->
  locals_rep L T ->
  Forall (state_inv n d k) T.*1 ->
  exists F' T',
    search n d macs L = Return F'
    /\ frontier_rep F' T'
    /\ (forall f, weight f T'
                  = weight (fun u => pysum (f <$> transitions n d macs u)) T)
    /\ Forall (state_inv n d (k + 1)) T'.*1
    /\ (T = [] -> T' = []).
Proof.
  intros Hx HL Hinv.
  destruct (search_loop n d macs k L T (reverse (seq 0 (length T)))
              empty_frontier [] Hx HL Hinv) as (F' & T' & Hrun & HF' & Hw & Hs).
  { apply Forall_forall. intros i Hi%elem_of_reverse%elem_of_seq. lia. }
  { apply empty_frontier_rep. }
  exists F', T'. split; [|split; [done|split; [|split]]].
  - unfold search. by rewrite (lrep_q _ _ HL).
  - intros f. rewrite Hw, weight_nil, Z.add_0_l.
    rewrite fmap_reverse, pysum_reverse.
    rewrite (fmap_lookup_seq T (fun o => match o with
        | Some (u, w) => w * pysum (f <$> transitions n d macs u)
        | None => 0 end)).
    unfold weight. f_equal. apply list_fmap_ext. by intros _ [u w] _.
  - apply Forall_forall. intros s Hin.
    destruct (Hs s Hin) as [?%elem_of_nil|(u & Hu & Hsu)]; [done|].
    eapply transitions_inv; [|done]. by apply (proj1 (Forall_forall _ _) Hinv).
  - intros ->. destruct T' as [|[s w] T']; [done|]. exfalso.
    destruct (Hs s) as [?%elem_of_nil|(u & ?%elem_of_nil & _)]; [by left|done..].
Qed.

Lemma level_rep (n d macs k i : Z) (L : locals) (T : table) :
  Z.abs n <= 2 ^ 53 ->
  locals_rep L T ->
  Forall (state_inv n d k) T.*1 ->
  exists L' T',
    level n d macs L i = Return L'
    /\ locals_rep L' T'
    /\ (forall f, weight f T'
                  = weight (fun u => pysum (f <$> transitions n d macs u)) T)
    /\ Forall (state_inv n d (k + 1)) T'.*1
    /\ (T = [] -> T' = [])
    /\ n_done (pbar1 L') = n_done (pbar1 L) + 1
    /\ is_Some (pbar2 L').
Proof.
  intros Hx HL Hinv.
  destruct (search_rep n d macs k L T Hx HL Hinv)
    as (F' & T' & Hrun & [Hq _ _ Hst Hp] & Hw & Hinv' & Hnil).
  eexists _, T'. split; [|split].
  - unfold level. rewrite Hrun. simpl. reflexivity.
  - by constructor.
  - simpl. eauto.
Qed.

(** ** All levels *)

Lemma initial_state_inv (n d : Z) : 0 <= n -> state_inv n d 0 (initial_state d).
Proof.
  intros Hn. unfold state_inv, initial_state. simpl. split; [|split].
  - by rewrite length_replicate.
  - rewrite pysum_replicate. lia.
  - apply Forall_replicate. lia.
Qed.

Lemma levels_S (n d macs : Z) (k : nat) :
  levels n d macs (Z.of_nat (S k))
  = L ← levels n d macs (Z.of_nat k); level n d macs L (Z.of_nat k).
Proof.
  unfold levels. rewrite range_S, for_each_app.
  destruct (for_each _ _ (range (Z.of_nat k))) as [L|e]; simpl; [|done].
  by destruct (level n d macs L (Z.of_nat k)).
Qed.

Lemma levels_rep (n d macs : Z) (k : nat) :
  0 <= n -> n <= 2 ^ 53 ->
  exists L T,
    levels n d macs (Z.of_nat k) = Return L
    /\ locals_rep L T
    /\ Forall (state_inv n d (Z.of_nat k)) T.*1
    /\ (forall j, weight (paths_from n d macs j) T
                  = paths_from n d macs (j + k) (initial_state d))
    /\ n_done (pbar1 L) = Z.of_nat k
    /\ (pbar2 L = None <-> k = 0%nat).
Proof.
  intros Hn Hn'. assert (Hx : Z.abs n <= 2 ^ 53) by lia.
  induction k as [|k IH].
  - exists (initial_locals n d), [(initial_state d, 1)].
    split; [done|]. split; [|split; [|split; [|done]]].
    + constructor; simpl; [done| |]; by rewrite insert_empty.
    + apply Forall_singleton. by apply initial_state_inv.
    + intros j. rewrite weight_cons, weight_nil, Nat.add_0_r. lia.
  - destruct IH as (L & T & Hrun & HL & Hinv & Hw & Hbar & _).
    destruct (level_rep n d macs (Z.of_nat k) (Z.of_nat k) L T Hx HL Hinv)
      as (L' & T' & Hlev & HL' & Hw' & Hinv' & _ & Hbar' & Hsome).
    exists L', T'. split; [|split; [done|split; [|split; [|split]]]].
    + by rewrite levels_S, Hrun.
    + by rewrite Nat2Z.inj_succ.
    + intros j. rewrite Hw'.
      replace (j + S k)%nat with (S j + k)%nat by lia. rewrite <- Hw.
      by apply weight_ext.
    + lia.
    + split; [|done]. intros HN. rewrite HN in Hsome. by destruct Hsome.
Qed.

(** From one cut on, [count_keys_macs_and_en1303] returns the number of
    paths of length [n] from the initial state. *)
Lemma count_paths_from (n d macs : Z) :
  1 <= n -> n <= 2 ^ 53 ->
  count_keys_macs_and_en1303 n d macs
  = Return (paths_from n d macs (Z.to_nat n) (initial_state d)).
Proof.
  intros Hn Hn'. unfold count_keys_macs_and_en1303.
  destruct (levels_rep n d macs (Z.to_nat n)) as (L & T & Hrun & HL & _ & Hw & _ & Hbar);
    [lia|done|].
  rewrite Z2Nat.id in Hrun by lia. rewrite Hrun. simpl.
  destruct (pbar2 L) as [p|] eqn:Hp.
  - f_equal. rewrite (lrep_paths _ _ HL), values_map_seq, <- weight_ones.
    rewrite <- (Hw 0%nat : _ = paths_from n d macs (Z.to_nat n) _).
    by apply weight_ext.
  - destruct Hbar as [Hbar _]. specialize (Hbar eq_refl). lia.
Qed.

(** Without a cut, [pbar2] is read before it is bound. *)
Lemma count_zero_unbound (n d macs : Z) :
  n <= 0 -> count_keys_macs_and_en1303 n d macs = Raise UnboundLocalError.
Proof.
  intros Hn. unfold count_keys_macs_and_en1303, levels, range.
  by rewrite seqZ_nil.
Qed.

(** ** Adding one cut at the end *)

Lemma last_two_snoc (p : list Z) (b : Z) :
  last_two (p ++ [b]) = ((last_two p).2, Some b).
Proof.
  unfold last_two. rewrite reverse_snoc.
  by destruct (reverse p) as [|c [|a r]].
Qed.

Lemma last_two_last (p : list Z) : (last_two p).2 = last p.
Proof.
  destruct p as [|b p _] using rev_ind; [done|].
  by rewrite last_two_snoc, last_snoc.
Qed.

Lemma last_two_cons (a x y : Z) (l : list Z) :
  last_two (a :: x :: y :: l) = last_two (x :: y :: l).
Proof.
  unfold last_two. rewrite (reverse_cons _ a).
  destruct (reverse (x :: y :: l)) as [|c [|b r]] eqn:Hr; [| |done].
  - apply (f_equal length) in Hr. rewrite length_reverse in Hr. done.
  - apply (f_equal length) in Hr. rewrite length_reverse in Hr. done.
Qed.

Lemma macs_ok_snoc (macs : Z) (p : list Z) (b : Z) :
  macs_ok macs (p ++ [b])
  = macs_ok macs p && match last p with
                      | Some c => Z.abs (c - b) <=? macs
                      | None => true
                      end.
Proof.
  induction p as [|a r IH]; [done|].
  destruct r as [|a' r'].
  - simpl. by rewrite andb_true_r.
  - change (macs_ok macs ((a :: a' :: r') ++ [b]))
      with ((Z.abs (a - a') <=? macs) && macs_ok macs ((a' :: r') ++ [b])).
    rewrite IH, last_cons_cons.
    change (macs_ok macs (a :: a' :: r'))
      with ((Z.abs (a - a') <=? macs) && macs_ok macs (a' :: r')).
    by rewrite andb_assoc.
Qed.

Lemma no_triple_snoc (p : list Z) (b : Z) :
  no_triple (p ++ [b])
  = no_triple p && negb (bool_decide ((last_two p).1 = (last_two p).2)
                         && bool_decide ((last_two p).2 = Some b)).
Proof.
  induction p as [|a r IH]; [done|].
  destruct r as [|a' [|a'' r'']].
  - done.
  - change (no_triple ([a; a'] ++ [b]))
      with (negb (bool_decide (a = a') && bool_decide (a' = b)) && true).
    rewrite andb_true_r. simpl. f_equal. f_equal; apply bool_decide_ext; naive_solver.
  - change (no_triple ((a :: a' :: a'' :: r'') ++ [b]))
      with (negb (bool_decide (a = a') && bool_decide (a' = a''))
            && no_triple ((a' :: a'' :: r'') ++ [b])).
    rewrite IH, last_two_cons.
    change (no_triple (a :: a' :: a'' :: r''))
      with (negb (bool_decide (a = a') && bool_decide (a' = a''))
            && no_triple (a' :: a'' :: r'')).
    by rewrite andb_assoc.
Qed.

Lemma freq_ok_snoc (n : Z) (p : list Z) (b : Z) :
  freq_ok n (p ++ [b]) = freq_ok n p && (2 * (freq b p + 1) <=? n).
Proof.
  apply eq_true_iff_eq. rewrite andb_true_iff, !freq_ok_spec, Z.leb_le. split.
  - intros H. split.
    + intros c Hc. specialize (H c). rewrite freq_snoc, elem_of_app in H.
      case_bool_decide; lia || (specialize (H (or_introl Hc)); lia).
    + specialize (H b). rewrite freq_snoc, elem_of_app in H.
      rewrite bool_decide_eq_true_2 in H by done.
      apply H. right. by left.
  - intros [H Hb] c Hc. rewrite freq_snoc.
    apply elem_of_app in Hc as [Hc|Hc%list_elem_of_singleton].
    + specialize (H c Hc). case_bool_decide; [subst; lia|lia].
    + subst. rewrite bool_decide_eq_true_2 by done. lia.
Qed.

Lemma valid_snoc (n macs : Z) (p : list Z) (b : Z) :
  valid n macs (p ++ [b]) = valid n macs p && step_ok n macs p b.
Proof.
  unfold valid, step_ok.
  rewrite freq_ok_snoc, macs_ok_snoc, no_triple_snoc, last_two_last.
  destruct (freq_ok n p), (macs_ok macs p), (no_triple p),
    (2 * (freq b p + 1) <=? n),
    (match last p with Some c => Z.abs (c - b) <=? macs | None => true end);
    simpl; done.
Qed.

Lemma valid_prefix (n macs : Z) (p x : list Z) :
  valid n macs (p ++ x) = true -> valid n macs p = true.
Proof.
  induction x as [|b x IH] using rev_ind.
  - by rewrite app_nil_r.
  - rewrite app_assoc, valid_snoc. intros [H _]%andb_true_iff. by apply IH.
Qed.

(** ** The state of a key *)

Lemma state_of_nil (d : Z) : state_of d [] = initial_state d.
Proof.
  unfold state_of, initial_state. f_equal.
  rewrite range_to_nat. generalize (Z.to_nat d) as k. intros k.
  rewrite <- list_fmap_compose.
  apply list_eq. intros i. rewrite list_lookup_fmap.
  destruct (decide (i < k)%nat).
  - rewrite lookup_seq_lt, lookup_replicate_2 by done. done.
  - rewrite lookup_seq_ge by lia. symmetry. apply lookup_replicate_None. lia.
Qed.

Lemma state_of_freq (d : Z) (p : list Z) (b : Z) :
  0 <= b < d -> (state_of d p).1 !! Z.to_nat b = Some (freq b p).
Proof.
  intros Hb. unfold state_of. simpl. rewrite list_lookup_fmap.
  unfold range. rewrite lookup_seqZ_lt by lia. simpl. f_equal. f_equal. lia.
Qed.

Lemma successor_state_of (d : Z) (p : list Z) (b : Z) :
  0 <= b < d -> successor (state_of d p) b = state_of d (p ++ [b]).
Proof.
  intros Hb. pose proof (state_of_freq d p b Hb) as Hf.
  unfold successor, state_of in *. rewrite last_two_snoc.
  destruct (last_two p) as [d1 d2]. cbn beta iota delta [fst snd] in *.
  rewrite (nth_lookup_Some _ _ 0 _ Hf).
  f_equal. apply list_eq. intros i.
  rewrite !list_lookup_fmap. unfold range.
  destruct (decide (Z.of_nat i < d)) as [Hi|Hi].
  - destruct (decide (i = Z.to_nat b)) as [->|Hne].
    + rewrite list_lookup_insert_eq by (rewrite length_fmap, length_seqZ; lia).
      rewrite lookup_seqZ_lt by lia. simpl. rewrite freq_snoc.
      replace (0 + Z.of_nat (Z.to_nat b)) with b by lia.
      by rewrite bool_decide_eq_true_2.
    + rewrite list_lookup_insert_ne by done. rewrite list_lookup_fmap.
      rewrite lookup_seqZ_lt by lia. simpl. rewrite freq_snoc.
      rewrite bool_decide_eq_false_2 by lia. f_equal. lia.
  - rewrite lookup_seqZ_ge by lia. simpl. apply lookup_ge_None.
    rewrite length_insert, length_fmap, length_seqZ. lia.
Qed.

Lemma admissible_state_of (n d macs : Z) (p : list Z) (b : Z) :
  0 <= b < d -> admissible n macs (state_of d p) b = step_ok n macs p b.
Proof.
  intros Hb. unfold admissible, step_ok.
  pose proof (state_of_freq d p b Hb) as Hf.
  unfold state_of in *. destruct (last_two p) as [d1 d2].
  cbn beta iota delta [fst snd] in *.
  rewrite (nth_lookup_Some _ _ 0 _ Hf). unfold over_half.
  destruct d2 as [c|]; rewrite ?Z.leb_antisym;
    destruct (negb (bool_decide (d1 = _) && bool_decide (_ = Some b))),
      (negb (n <? 2 * (freq b p + 1))); simpl;
    rewrite ?andb_true_r, ?andb_false_r; done.
Qed.

Lemma pysum_indicator (l : list Z) (x : Z) :
  NoDup l -> x ∈ l ->
  pysum ((fun c => if bool_decide (x = c) then 1 else 0) <$> l) = 1.
Proof.
  induction 1 as [|c l Hc _ IH]; [by intros ?%elem_of_nil|].
  rewrite fmap_cons, pysum_cons. intros [->|Hx]%elem_of_cons.
  - rewrite bool_decide_eq_true_2 by done. rewrite pysum_zero; [done|].
    apply Forall_fmap, Forall_forall. intros c' Hc'. simpl.
    rewrite bool_decide_eq_false_2; [done|]. by intros ->.
  - rewrite IH by done. rewrite bool_decide_eq_false_2; [done|]. by intros ->.
Qed.

Lemma pysum_fmap_add {A : Type} (f g : A -> Z) (l : list A) :
  pysum ((fun x => f x + g x) <$> l) = pysum (f <$> l) + pysum (g <$> l).
Proof.
  induction l as [|x l IH]; [done|]. rewrite !fmap_cons, !pysum_cons, IH. lia.
Qed.

Lemma state_of_sum (d : Z) (p : list Z) :
  Forall (fun x => x ∈ range d) p ->
  pysum (state_of d p).1 = Z.of_nat (length p).
Proof.
  unfold state_of. simpl. induction 1 as [|x p Hx _ IH].
  - rewrite pysum_zero; [done|]. apply Forall_fmap, Forall_forall. by intros.
  - rewrite (list_fmap_ext _
      (fun c => (if bool_decide (x = c) then 1 else 0) + freq c p) (range d))
      by (intros; apply freq_cons).
    rewrite pysum_fmap_add, IH, pysum_indicator; [simpl length; lia| |done].
    apply NoDup_seqZ.
Qed.

Lemma bind_cons_singleton {A : Type} (b : A) (l : list (list A)) :
  l ≫= (fun t => [b :: t]) = (cons b) <$> l.
Proof.
  induction l as [|t l IH]; [done|]. rewrite bind_cons, fmap_cons, IH. done.
Qed.

Lemma pysum_filter {A : Type} (S : A -> bool) (F : A -> Z) (l : list A) :
  pysum (F <$> filter (fun x => S x) l)
  = pysum ((fun x => if S x then F x else 0) <$> l).
Proof.
  induction l as [|x l IH]; [done|].
  rewrite filter_bool_cons, fmap_cons, pysum_cons.
  destruct (S x); [rewrite fmap_cons, pysum_cons|]; rewrite IH; lia.
Qed.

(** ** Paths and valid sequences *)

Lemma paths_from_count (n d macs : Z) (k : nat) (p : list Z) :
  Forall (fun x => x ∈ range d) p ->
  valid n macs p = true ->
  Z.of_nat (length p) + Z.of_nat k = n ->
  paths_from n d macs k (state_of d p)
  = count_if (fun x => valid n macs (p ++ x)) (product (range d) k).
Proof.
  revert p. induction k as [|k IH]; intros p Hp Hv Hlen.
  - simpl. rewrite count_if_cons, count_if_nil, app_nil_r, Hv. done.
  - simpl paths_from. simpl product. unfold transitions.
    rewrite bool_decide_eq_false_2 by (rewrite state_of_sum by done; lia).
    rewrite <- list_fmap_compose, pysum_filter, count_if_bind.
    f_equal. apply list_fmap_ext. intros _ b Hb%list_elem_of_lookup_2.
    pose proof Hb as Hb'%elem_of_range.
    rewrite (admissible_state_of n d macs p b Hb'). unfold compose.
    rewrite (successor_state_of d p b Hb'), bind_cons_singleton, count_if_fmap.
    assert (Hsnoc : forall t, p ++ b :: t = (p ++ [b]) ++ t)
      by (intros; by rewrite <- app_assoc).
    destruct (step_ok n macs p b) eqn:Hstep.
    + rewrite IH.
      * apply count_if_ext. intros t _. by rewrite <- app_assoc.
      * apply Forall_app. split; [done|]. apply Forall_singleton. exact Hb.
      * by rewrite valid_snoc, Hv, Hstep.
      * rewrite length_app. simpl. lia.
    + symmetry. apply count_if_false. intros t _. rewrite (Hsnoc t).
      apply not_true_is_false. intros Ht%valid_prefix.
      rewrite valid_snoc, Hv, Hstep in Ht. done.
Qed.

(** The search counts the valid sequences. *)
Lemma paths_from_initial (n d macs : Z) :
  0 <= n ->
  paths_from n d macs (Z.to_nat n) (initial_state d) = count_valid n d macs.
Proof.
  intros Hn. rewrite <- state_of_nil.
  rewrite (paths_from_count n d macs (Z.to_nat n) []); [done..|simpl; lia].
Qed.

Lemma count_constrained_valid (n d macs : Z) :
  1 <= n -> n <= 2 ^ 53 ->
  count_keys_macs_and_en1303 n d macs = Return (count_valid n d macs).
Proof.
  intros Hn Hn'. rewrite count_paths_from by done. f_equal.
  apply paths_from_initial. lia.
Qed.

(** ** Sums over lists *)

Lemma pysum_fmap_ext {A : Type} (f g : A -> Z) (l : list A) :
  (forall x, x ∈ l -> f x = g x) -> pysum (f <$> l) = pysum (g <$> l).
Proof.
  intros Hfg. f_equal. apply list_fmap_ext. intros i x Hx. apply Hfg.
  by eapply list_elem_of_lookup_2.
Qed.

Lemma pysum_fmap_zero {A : Type} (l : list A) : pysum ((fun _ => 0) <$> l) = 0.
Proof. apply pysum_zero, Forall_fmap, Forall_forall. by intros. Qed.

Lemma pysum_fmap_mul {A : Type} (f : A -> Z) (c : Z) (l : list A) :
  pysum ((fun x => f x * c) <$> l) = pysum (f <$> l) * c.
Proof.
  induction l as [|x l IH]; [done|]. rewrite !fmap_cons, !pysum_cons, IH. lia.
Qed.

Lemma pysum_swap {A B : Type} (f : A -> B -> Z) (la : list A) (lb : list B) :
  pysum ((fun a => pysum (f a <$> lb)) <$> la)
  = pysum ((fun b => pysum ((fun a => f a b) <$> la)) <$> lb).
Proof.
  induction la as [|a la IH].
  - simpl. by rewrite pysum_fmap_zero.
  - rewrite fmap_cons, pysum_cons, IH, <- pysum_fmap_add.
    apply pysum_fmap_ext. intros b _. by rewrite fmap_cons, pysum_cons.
Qed.

Lemma pysum_bind {A B : Type} (g : B -> Z) (f : A -> list B) (l : list A) :
  pysum (g <$> (l ≫= f)) = pysum ((fun x => pysum (g <$> f x)) <$> l).
Proof.
  induction l as [|x l IH]; [done|].
  rewrite bind_cons, fmap_app, pysum_app, fmap_cons, pysum_cons, IH. done.
Qed.

Lemma pysum_concat (M : list (list Z)) : pysum (concat M) = pysum (pysum <$> M).
Proof.
  induction M as [|r M IH]; [done|].
  simpl concat. rewrite pysum_app, fmap_cons, pysum_cons, IH. done.
Qed.

Lemma pysum_single (l : list Z) (x : Z) (g : Z -> Z) :
  NoDup l -> x ∈ l ->
  pysum ((fun c => if bool_decide (x = c) then g c else 0) <$> l) = g x.
Proof.
  induction 1 as [|c l Hc _ IH]; [by intros ?%elem_of_nil|].
  rewrite fmap_cons, pysum_cons. intros [->|Hx]%elem_of_cons.
  - rewrite bool_decide_eq_true_2 by done. rewrite pysum_zero; [lia|].
    apply Forall_fmap, Forall_forall. intros c' Hc'. simpl.
    rewrite bool_decide_eq_false_2; [done|]. by intros ->.
  - rewrite IH by done. rewrite bool_decide_eq_false_2; [done|]. by intros ->.
Qed.

Lemma count_if_pysum {A : Type} (P : A -> bool) (l : list A) :
  count_if P l = pysum ((fun x => if P x then 1 else 0) <$> l).
Proof.
  induction l as [|x l IH]; [done|].
  by rewrite count_if_cons, fmap_cons, pysum_cons, IH.
Qed.

(** ** Matrices *)

Lemma entry_fromfunction (f : Z -> Z -> Z) (r c i j : Z) :
  0 <= i < r -> 0 <= j < c -> entry (fromfunction f (r, c)) i j = f i j.
Proof.
  intros Hi Hj. unfold entry, fromfunction, range. simpl.
  erewrite (nth_lookup_Some _ (Z.to_nat i) []); last first.
  { rewrite list_lookup_fmap, lookup_seqZ_lt by lia. done. }
  erewrite nth_lookup_Some; last first.
  { rewrite list_lookup_fmap, lookup_seqZ_lt by lia. done. }
  f_equal; lia.
Qed.

Lemma matrix_sum_fromfunction (f : Z -> Z -> Z) (r c : Z) :
  matrix_sum (fromfunction f (r, c))
  = pysum ((fun i => pysum (f i <$> range c)) <$> range r).
Proof.
  unfold matrix_sum, fromfunction. simpl.
  by rewrite pysum_concat, <- list_fmap_compose.
Qed.

Lemma matrix_pow_fromfunction (d : Z) (M : matrix) (k : nat) :
  exists f, matrix_pow d M k = fromfunction f (d, d).
Proof. destruct k; simpl; unfold eye, dot; eauto. Qed.

Lemma matrix_sum_entries (d : Z) (M : matrix) (k : nat) :
  matrix_sum (matrix_pow d M k)
  = pysum ((fun i => pysum ((fun j => entry (matrix_pow d M k) i j) <$> range d))
             <$> range d).
Proof.
  destruct (matrix_pow_fromfunction d M k) as [f ->].
  rewrite matrix_sum_fromfunction.
  apply pysum_fmap_ext. intros i Hi%elem_of_range.
  apply pysum_fmap_ext. intros j Hj%elem_of_range.
  by rewrite entry_fromfunction.
Qed.

Lemma entry_adjacency_matrix (d macs i j : Z) :
  0 <= i < d -> 0 <= j < d ->
  entry (adjacency_matrix d macs) i j = Z.b2z (Z.abs (i - j) <=? macs).
Proof. intros. unfold adjacency_matrix. by rewrite entry_fromfunction. Qed.

Lemma entry_dot (d : Z) (X Y : matrix) (i j : Z) :
  0 <= i < d -> 0 <= j < d ->
  entry (dot d X Y) i j = pysum ((fun l => entry X i l * entry Y l j) <$> range d).
Proof. intros. unfold dot. by rewrite entry_fromfunction. Qed.

(** ** Sequences by their last cut *)

Lemma product_S (pool : list Z) (r : nat) :
  product pool (S r) = pool ≫= (fun x => cons x <$> product pool r).
Proof.
  change (product pool (S r))
    with (pool ≫= (fun x => product pool r ≫= (fun t => [x :: t]))).
  apply list_bind_ext; [|done]. intros x. apply bind_cons_singleton.
Qed.

Lemma count_product_snoc (pool : list Z) (r : nat) (P : list Z -> bool) :
  count_if P (product pool (S r))
  = pysum ((fun t => pysum ((fun x => if P (t ++ [x]) then 1 else 0) <$> pool))
             <$> product pool r).
Proof.
  revert P. induction r as [|r IH]; intros P.
  - rewrite product_S, count_if_bind. simpl product.
    rewrite fmap_cons, pysum_cons. simpl. rewrite pysum_nil, Z.add_0_r.
    apply pysum_fmap_ext. intros x _.
    by rewrite count_if_cons, count_if_nil, Z.add_0_r.
  - etransitivity.
    { rewrite (product_S pool (S r)), count_if_bind.
      apply pysum_fmap_ext. intros x _. rewrite count_if_fmap, IH. reflexivity. }
    rewrite (product_S pool r), pysum_bind.
    apply pysum_fmap_ext. intros x _. by rewrite <- list_fmap_compose.
Qed.

Lemma product_nonempty (pool : list Z) (r : nat) (t : list Z) :
  t ∈ product pool (S r) ->
  exists a l, head t = Some a /\ last t = Some l /\ a ∈ pool /\ l ∈ pool.
Proof.
  intros Ht. pose proof (length_product _ _ _ Ht) as Hlen.
  pose proof (Forall_product _ _ _ Ht) as Hall.
  destruct t as [|a t]; [done|]. exists a.
  destruct (last (a :: t)) as [l|] eqn:Hl.
  - exists l. split; [done|]. split; [done|]. split.
    + by inversion Hall.
    + apply (proj1 (Forall_forall _ _) Hall). by apply last_Some_elem_of.
  - by apply last_None in Hl.
Qed.

(** ** The powers of the adjacency matrix count sequences *)

Lemma from_to_snoc (i j : Z) (t : list Z) (a l x : Z) :
  head t = Some a -> last t = Some l ->
  from_to i j (t ++ [x]) = bool_decide (a = i) && bool_decide (x = j).
Proof.
  intros Ha Hl. unfold from_to. rewrite last_snoc.
  destruct t as [|a' t]; [done|]. simpl in *. injection Ha as ->.
  f_equal; apply bool_decide_ext; naive_solver.
Qed.

Lemma from_to_head_last (i j : Z) (t : list Z) (a l : Z) :
  head t = Some a -> last t = Some l ->
  from_to i j t = bool_decide (a = i) && bool_decide (l = j).
Proof.
  intros Ha Hl. unfold from_to. rewrite Ha, Hl.
  f_equal; apply bool_decide_ext; naive_solver.
Qed.

Lemma count_macs_from_to_1 (d macs i j : Z) :
  0 <= i < d ->
  count_macs_from_to 1 d macs i j = if i =? j then 1 else 0.
Proof.
  intros Hi. unfold count_macs_from_to.
  change (Z.to_nat 1) with 1%nat. rewrite product_S, count_if_bind.
  rewrite (pysum_fmap_ext _
    (fun c => if bool_decide (i = c) then (if bool_decide (c = j) then 1 else 0) else 0)).
  - rewrite pysum_single; [|apply NoDup_seqZ|by apply elem_of_range].
    destruct (Z.eqb_spec i j);
      [by rewrite bool_decide_eq_true_2|by rewrite bool_decide_eq_false_2].
  - intros x _. simpl. rewrite count_if_cons, count_if_nil.
    rewrite (from_to_head_last i j [x] x x) by done. rewrite andb_true_r.
    repeat case_bool_decide; simpl; congruence || lia.
Qed.

Lemma count_macs_from_to_S (d macs i j : Z) (k : nat) :
  0 <= i < d -> 0 <= j < d ->
  count_macs_from_to (Z.of_nat (S k) + 1) d macs i j
  = pysum ((fun l => count_macs_from_to (Z.of_nat k + 1) d macs i l
                     * Z.b2z (Z.abs (l - j) <=? macs)) <$> range d).
Proof.
  intros Hi Hj. unfold count_macs_from_to.
  replace (Z.to_nat (Z.of_nat (S k) + 1)) with (S (S k)) by lia.
  replace (Z.to_nat (Z.of_nat k + 1)) with (S k) by lia.
  rewrite count_product_snoc.
  rewrite (pysum_fmap_ext _ (fun l =>
     pysum ((fun t => (if from_to i l t && macs_ok macs t then 1 else 0)
                      * Z.b2z (Z.abs (l - j) <=? macs))
              <$> product (range d) (S k))) (range d)); last first.
  { intros l _. by rewrite count_if_pysum, pysum_fmap_mul. }
  rewrite (pysum_swap (fun l t => (if from_to i l t && macs_ok macs t then 1 else 0)
                                  * Z.b2z (Z.abs (l - j) <=? macs))).
  apply pysum_fmap_ext. intros t Ht.
  destruct (product_nonempty _ _ _ Ht) as (a & l0 & Ha & Hl & _ & Hl0).
  rewrite (pysum_fmap_ext _ (fun x => if bool_decide (j = x)
      then (if bool_decide (a = i) && macs_ok macs t && (Z.abs (l0 - x) <=? macs)
            then 1 else 0) else 0) (range d)); last first.
  { intros x _. rewrite (from_to_snoc i j t a l0 x Ha Hl), macs_ok_snoc, Hl.
    repeat case_bool_decide; simpl; try congruence;
      destruct (macs_ok macs t), (Z.abs (l0 - x) <=? macs); done. }
  rewrite pysum_single; [|apply NoDup_seqZ|by apply elem_of_range].
  rewrite (pysum_fmap_ext _ (fun l => if bool_decide (l0 = l)
      then (if bool_decide (a = i) && macs_ok macs t then 1 else 0)
           * Z.b2z (Z.abs (l - j) <=? macs) else 0) (range d)); last first.
  { intros l _. rewrite (from_to_head_last i l t a l0 Ha Hl).
    repeat case_bool_decide; simpl; try congruence;
      rewrite ?andb_false_r; simpl; lia. }
  rewrite pysum_single; [|apply NoDup_seqZ|done].
  destruct (bool_decide (a = i)), (macs_ok macs t), (Z.abs (l0 - j) <=? macs);
    simpl; lia.
Qed.

Lemma entry_pow_count (d macs : Z) (k : nat) (i j : Z) :
  0 <= i < d -> 0 <= j < d ->
  entry (matrix_pow d (adjacency_matrix d macs) k) i j
  = count_macs_from_to (Z.of_nat k + 1) d macs i j.
Proof.
  intros Hi. revert j. induction k as [|k IH]; intros j Hj.
  - simpl matrix_pow. unfold eye. rewrite entry_fromfunction by done.
    by rewrite count_macs_from_to_1.
  - simpl matrix_pow. rewrite entry_dot, count_macs_from_to_S by done.
    apply pysum_fmap_ext. intros l Hl%elem_of_range.
    by rewrite IH, entry_adjacency_matrix.
Qed.

(** The entries of a row-by-column partition add up to the whole count. *)
Lemma count_macs_from_to_total (d macs : Z) (k : nat) :
  pysum ((fun i => pysum ((fun j => count_macs_from_to (Z.of_nat (S k)) d macs i j)
                            <$> range d)) <$> range d)
  = count_macs (Z.of_nat (S k)) d macs.
Proof.
  unfold count_macs_from_to, count_macs. rewrite Nat2Z.id.
  rewrite (count_if_pysum (macs_ok macs)).
  rewrite (pysum_fmap_ext _ (fun i => pysum ((fun t =>
      pysum ((fun j => if from_to i j t && macs_ok macs t then 1 else 0)
               <$> range d)) <$> product (range d) (S k))) (range d)); last first.
  { intros i _.
    rewrite <- (pysum_swap (fun j t => if from_to i j t && macs_ok macs t then 1 else 0)).
    apply pysum_fmap_ext. intros j _. apply count_if_pysum. }
  rewrite (pysum_swap (fun i t =>
      pysum ((fun j => if from_to i j t && macs_ok macs t then 1 else 0) <$> range d))).
  apply pysum_fmap_ext. intros t Ht.
  destruct (product_nonempty _ _ _ Ht) as (a & l0 & Ha & Hl & Ha0 & Hl0).
  rewrite (pysum_fmap_ext _ (fun i => if bool_decide (a = i)
      then (if macs_ok macs t then 1 else 0) else 0) (range d)).
  { rewrite pysum_single; [done|apply NoDup_seqZ|done]. }
  intros i _.
  rewrite (pysum_fmap_ext _ (fun j => if bool_decide (l0 = j)
      then (if bool_decide (a = i) && macs_ok macs t then 1 else 0) else 0) (range d)).
  { rewrite pysum_single; [|apply NoDup_seqZ|done]. by case_bool_decide. }
  intros j _. rewrite (from_to_head_last i j t a l0 Ha Hl).
  repeat case_bool_decide; simpl; rewrite ?andb_false_r; congruence.
Qed.

(** [count_keys] counts the sequences that meet the adjacency constraint. *)
Lemma count_keys_count_macs (n d macs : Z) :
  0 <= n -> 0 <= d -> count_keys n d macs = Return (count_macs n d macs).
Proof.
  intros Hn Hd. unfold count_keys.
  destruct (Z.eqb_spec n 0) as [->|Hn0].
  { unfold count_macs. simpl. by rewrite count_if_cons, count_if_nil. }
  destruct (Z.ltb_spec d 0) as [?|_]; [lia|].
  unfold matrix_power. destruct (Z.ltb_spec (n - 1) 0) as [?|_]; [lia|].
  rewrite bind_Return. f_equal. rewrite matrix_sum_entries.
  transitivity (count_macs (Z.of_nat (S (Z.to_nat (n - 1)))) d macs);
    [|f_equal; lia].
  rewrite <- count_macs_from_to_total.
  apply pysum_fmap_ext. intros i Hi%elem_of_range.
  apply pysum_fmap_ext. intros j Hj%elem_of_range.
  rewrite entry_pow_count by done. f_equal. lia.
Qed.

(** ** Degenerate alphabets and empty levels *)

Lemma product_singleton (x : Z) (r : nat) : product [x] r = [replicate r x].
Proof.
  induction r as [|r IH]; [done|]. rewrite product_S, IH. done.
Qed.

Lemma freq_replicate (x : Z) (r : nat) : freq x (replicate r x) = Z.of_nat r.
Proof.
  induction r as [|r IH]; [done|]. simpl replicate.
  rewrite freq_cons, IH, bool_decide_eq_true_2 by done. lia.
Qed.

Lemma freq_ok_replicate (n x : Z) (r : nat) :
  (0 < r)%nat -> n < 2 * Z.of_nat r -> freq_ok n (replicate r x) = false.
Proof.
  intros Hr Hn. apply not_true_is_false. intros H.
  pose proof (proj1 (freq_ok_spec n _) H x) as Hx.
  rewrite freq_replicate in Hx. destruct r as [|r]; [lia|].
  specialize (Hx ltac:(by left)). lia.
Qed.

Lemma macs_ok_replicate (macs x : Z) (r : nat) :
  0 <= macs -> macs_ok macs (replicate r x) = true.
Proof.
  intros Hm. induction r as [|r IH]; [done|].
  destruct r as [|r]; [done|].
  change (macs_ok macs (replicate (S (S r)) x))
    with ((Z.abs (x - x) <=? macs) && macs_ok macs (replicate (S r) x)).
  rewrite IH, andb_true_r. apply Z.leb_le. lia.
Qed.

Lemma no_triple_replicate (x : Z) (r : nat) :
  (3 <= r)%nat -> no_triple (replicate r x) = false.
Proof.
  intros Hr. do 3 (destruct r as [|r]; [lia|]). simpl.
  by rewrite bool_decide_eq_true_2.
Qed.

Lemma valid_macs_ok (n macs : Z) (t : list Z) :
  valid n macs t = true -> macs_ok macs t = true.
Proof. unfold valid. by intros [[_ ?]%andb_true_iff _]%andb_true_iff. Qed.

Lemma macs_ok_mono (macs1 macs2 : Z) (t : list Z) :
  macs1 <= macs2 -> macs_ok macs1 t = true -> macs_ok macs2 t = true.
Proof.
  intros Hm. induction t as [|a r IH]; [done|].
  destruct r as [|b r]; [done|].
  change (macs_ok ?m (a :: b :: r))
    with ((Z.abs (a - b) <=? m) && macs_ok m (b :: r)).
  rewrite !andb_true_iff, !Z.leb_le. intros [? ?]. split; [lia|by apply IH].
Qed.

Lemma valid_mono (n macs1 macs2 : Z) (t : list Z) :
  macs1 <= macs2 -> valid n macs1 t = true -> valid n macs2 t = true.
Proof.
  intros Hm. unfold valid. rewrite !andb_true_iff.
  intros [[? ?] ?]. split; [split|]; [done| |done].
  by apply (macs_ok_mono macs1).
Qed.

Lemma level_empty (n d macs i : Z) (L : locals) :
  q L = [] ->
  exists L', level n d macs L i = Return L' /\ q L' = []
             /\ id_to_state L' = ∅ /\ paths L' = ∅.
Proof.
  intros Hq. unfold level, search. rewrite Hq. simpl. eauto.
Qed.

Lemma levels_empty (n d macs : Z) (k m : nat) (L : locals) :
  0 <= n -> n <= 2 ^ 53 ->
  levels n d macs (Z.of_nat k) = Return L -> q L = [] ->
  exists L', levels n d macs (Z.of_nat (k + m)) = Return L' /\ q L' = []
             /\ id_to_state L' = ∅ /\ paths L' = ∅.
Proof.
  intros Hn Hn' Hrun Hq. induction m as [|m IH].
  - rewrite Nat.add_0_r. exists L. split; [done|]. split; [done|].
    destruct (levels_rep n d macs k Hn Hn') as (L0 & T & Hrun0 & [Hq0 Hst Hp] & _).
    rewrite Hrun in Hrun0. injection Hrun0 as <-.
    destruct T as [|x T]; [|by rewrite Hq in Hq0].
    by rewrite Hst, Hp.
  - destruct IH as (L1 & Hrun1 & Hq1 & _).
    destruct (level_empty n d macs (Z.of_nat (k + m)) L1 Hq1) as (L2 & Hlev & ?).
    exists L2. split; [|done].
    replace (k + S m)%nat with (S (k + m)) by lia.
    by rewrite levels_S, Hrun1.
Qed.

Lemma values_empty : values (∅ : gmap nat Z) = [].
Proof. unfold values. by rewrite map_to_list_empty. Qed.

(** ** The functions on small inputs *)

Example brute_4_2_1 : brute 4 2 1 = Return 6.
Proof. by vm_compute. Qed.

Example constrained_4_2_1 : count_keys_macs_and_en1303 4 2 1 = Return 6.
Proof. by vm_compute. Qed.

Example constrained_3_2_1 : count_keys_macs_and_en1303 3 2 1 = Return 0.
Proof. by vm_compute. Qed.

Example constrained_6_4_2 :
  count_keys_macs_and_en1303 6 4 2 = Return 1554 /\ brute 6 4 2 = Return 1554.
Proof. by vm_compute. Qed.

Example count_keys_3_2_1 : count_keys 3 2 1 = Return 8.
Proof. by vm_compute. Qed.

Example count_keys_14_8_6 : count_keys 14 8 6 = Return 3012297335522.
Proof. by vm_compute. Qed.

Example true_div_2_rounds :
  true_div_2 (2 ^ 54 + 2) = Return (2 ^ 54)
  /\ true_div_2 (2 ^ 54 + 6) = Return (2 ^ 54 + 8)
  /\ true_div_2 (2 ^ 1025) = Raise OverflowError.
Proof. by vm_compute. Qed.

Example more_than_half_rounds :
  more_than_half (2 ^ 53 + 1) (2 ^ 54 + 2) = Return true
  /\ over_half (2 ^ 53 + 1) (2 ^ 54 + 2) = false.
Proof. by vm_compute. Qed.

Example constrained_0_3_1 :
  count_keys_macs_and_en1303 0 3 1 = Raise UnboundLocalError.
Proof. by vm_compute. Qed.

(** * The claims *)

(** C1. For every key length [n] from 1 to 2^53,
    [count_keys_macs_and_en1303] returns exactly the integer [brute]
    returns, the number of sequences the whole-sequence predicate accepts.
    The transition rule is that predicate checked one cut at a time:
    [neighbors] yields the successors by the admissible cuts, and a key
    extended by [b] is valid exactly when the key was valid and [b] is
    admissible from its state (at the boundary [2 * count = n] as
    everywhere else).  At [n = 0] the two differ: [brute] returns 1 and
    [count_keys_macs_and_en1303] raises [UnboundLocalError]. *)
Theorem constrained_eq_brute (n d macs : Z) :
  0 <= n -> n <= 2 ^ 53 ->
  brute n d macs = Return (count_valid n d macs)
  /\ (forall st, length st.1 = Z.to_nat d ->
        neighbors n d macs st = Return (transitions n d macs st))
  /\ (forall p b, 0 <= b < d ->
        valid n macs (p ++ [b])
        = valid n macs p && admissible n macs (state_of d p) b)
  /\ (1 <= n -> count_keys_macs_and_en1303 n d macs = brute n d macs)
  /\ (n = 0 -> count_keys_macs_and_en1303 n d macs = Raise UnboundLocalError
               /\ brute n d macs = Return 1).
Proof.
  intros Hn Hn'. split; [by apply brute_count_valid|]. split; [|split; [|split]].
  - intros st Hlen. apply neighbors_transitions; [lia|done].
  - intros p b Hb. by rewrite valid_snoc, (admissible_state_of n d macs p b Hb).
  - intros Hn1. by rewrite count_constrained_valid, brute_count_valid.
  - intros ->. split; [by apply count_zero_unbound|done].
Qed.

Lemma constrained_eq_brute_witness :
  0 <= 4 /\ 4 <= 2 ^ 53 /\ count_keys_macs_and_en1303 4 3 1 = brute 4 3 1.
Proof.
  split; [lia|]. split; [lia|]. apply (constrained_eq_brute 4 3 1); lia.
Defined.

(** C2. For [n >= 1], [d >= 1], [macs >= 0]: entry (i, j) of the adjacency
    matrix is 1 when [|i - j| <= macs] and 0 otherwise; entry (i, j) of its
    power [n - 1] is the number of length-[n] sequences from [i] to [j] that
    meet the adjacency constraint; and [count_keys] returns the sum of all
    the entries of that power, an integer of unbounded size. *)
Theorem count_keys_matrix_power (n d macs : Z) :
  1 <= n -> 1 <= d -> 0 <= macs ->
  (forall i j, 0 <= i < d -> 0 <= j < d ->
     entry (adjacency_matrix d macs) i j
     = if Z.abs (i - j) <=? macs then 1 else 0)
  /\ (forall i j, 0 <= i < d -> 0 <= j < d ->
        entry (matrix_pow d (adjacency_matrix d macs) (Z.to_nat (n - 1))) i j
        = count_macs_from_to n d macs i j)
  /\ count_keys n d macs
     = Return (matrix_sum (matrix_pow d (adjacency_matrix d macs) (Z.to_nat (n - 1))))
  /\ matrix_sum (matrix_pow d (adjacency_matrix d macs) (Z.to_nat (n - 1)))
     = pysum ((fun i => pysum ((fun j =>
                 entry (matrix_pow d (adjacency_matrix d macs) (Z.to_nat (n - 1))) i j)
               <$> range d)) <$> range d).
Proof.
  intros Hn Hd Hm. split; [|split; [|split]].
  - intros i j Hi Hj. rewrite entry_adjacency_matrix by done.
    by destruct (Z.abs (i - j) <=? macs).
  - intros i j Hi Hj. rewrite entry_pow_count by done. f_equal. lia.
  - unfold count_keys, matrix_power.
    destruct (Z.eqb_spec n 0) as [?|_]; [lia|].
    destruct (Z.ltb_spec d 0) as [?|_]; [lia|].
    destruct (Z.ltb_spec (n - 1) 0) as [?|_]; [lia|]. done.
  - apply matrix_sum_entries.
Qed.

Lemma count_keys_matrix_power_witness :
  1 <= 4 /\ 1 <= 3 /\ 0 <= 1
  /\ count_keys 4 3 1
     = Return (matrix_sum (matrix_pow 3 (adjacency_matrix 3 1) (Z.to_nat (4 - 1)))).
Proof.
  split; [lia|]. split; [lia|]. split; [lia|].
  apply (count_keys_matrix_power 4 3 1); lia.
Defined.

(** C3, as the code has it.  No function checks its parameters.  A
    negative [n] makes [brute] raise [ValueError] and [count_keys] raise
    ([ValueError] when [d < 0], else [TypeError], for [|macs| <= 2^1023]).
    Otherwise a [d] below 1 or a negative [macs] is not refused: [brute]
    returns an integer for every [n] from 0 to 2^53, [count_keys] for every
    [n >= 0] and [d >= 0] with [|macs| <= 2^1023] (and 1 at [n = 0]
    whatever [d] and [macs]), [count_keys_macs_and_en1303] for every [n]
    from 1 to 2^53; only [count_keys] with [d < 0] and [n <> 0] raises
    [ValueError]. *)
Theorem parameters_unchecked (n d macs : Z) :
  (n < 0 -> brute n d macs = Raise ValueError
            /\ (Z.abs macs <= 2 ^ 1023 ->
                  count_keys n d macs
                  = Raise (if d <? 0 then ValueError else TypeError)))
  /\ (0 <= n -> n <= 2 ^ 53 -> returns_integer (brute n d macs))
  /\ (0 <= n -> 0 <= d -> Z.abs macs <= 2 ^ 1023 ->
        returns_integer (count_keys n d macs))
  /\ (n = 0 -> count_keys n d macs = Return 1)
  /\ (n <> 0 -> d < 0 -> count_keys n d macs = Raise ValueError)
  /\ (1 <= n -> n <= 2 ^ 53 ->
        returns_integer (count_keys_macs_and_en1303 n d macs)).
Proof.
  split; [|split; [|split; [|split; [|split]]]].
  - intros Hn. split.
    + unfold brute. by destruct (Z.ltb_spec n 0) as [_|?]; [|lia].
    + intros _. unfold count_keys, matrix_power.
      destruct (Z.eqb_spec n 0) as [?|_]; [lia|].
      destruct (d <? 0); [done|].
      by destruct (Z.ltb_spec (n - 1) 0) as [_|?]; [|lia].
  - intros Hn Hn'. eexists. by apply brute_count_valid.
  - intros Hn Hd _. eexists. by apply count_keys_count_macs.
  - intros ->. done.
  - intros Hn Hd. unfold count_keys.
    destruct (Z.eqb_spec n 0) as [?|_]; [lia|].
    by destruct (Z.ltb_spec d 0) as [_|?]; [|lia].
  - intros Hn Hn'. eexists. by apply count_constrained_valid.
Qed.

Lemma parameters_unchecked_witness :
  1 <= 2 /\ 2 <= 2 ^ 53 /\ invalid_parameter 2 0 (-1)
  /\ returns_integer (count_keys_macs_and_en1303 2 0 (-1)).
Proof.
  split; [lia|]. split; [lia|]. split; [unfold invalid_parameter; lia|].
  apply (parameters_unchecked 2 0 (-1)); lia.
Defined.

(** C3, as stated, fails: with [d = 0] and [macs = -1] the three functions
    return an integer. *)
Lemma invalid_parameter_returns :
  invalid_parameter 0 0 (-1)
  /\ count_keys 0 0 (-1) = Return 1
  /\ brute 0 0 (-1) = Return 1
  /\ invalid_parameter 1 0 (-1)
  /\ count_keys_macs_and_en1303 1 0 (-1) = Return 0.
Proof.
  unfold invalid_parameter. repeat split; try lia; by vm_compute.
Qed.

(** C4. For [n] from 1 to 2^53 and [macs <= 2^1023] both functions
    return, and the integer of [count_keys] is at least that of
    [count_keys_macs_and_en1303]; at [n = 0] [count_keys] returns 1 and
    [count_keys_macs_and_en1303] raises [UnboundLocalError]. *)
Theorem adjacency_bounds_constrained (n d macs : Z) :
  0 <= n -> n <= 2 ^ 53 -> 1 <= d -> 0 <= macs ->
  (1 <= n -> macs <= 2 ^ 1023 ->
     exists a c, count_keys n d macs = Return a
                 /\ count_keys_macs_and_en1303 n d macs = Return c
                 /\ c <= a)
  /\ (n = 0 -> count_keys n d macs = Return 1
               /\ count_keys_macs_and_en1303 n d macs = Raise UnboundLocalError).
Proof.
  intros Hn Hn' Hd Hm. split.
  - intros Hn1 _. exists (count_macs n d macs), (count_valid n d macs).
    split; [apply count_keys_count_macs; lia|].
    split; [by apply count_constrained_valid|].
    apply count_if_mono. intros t _. apply valid_macs_ok.
  - intros ->. split; [done|by apply count_zero_unbound].
Qed.

Lemma adjacency_bounds_constrained_witness :
  0 <= 4 /\ 4 <= 2 ^ 53 /\ 1 <= 3 /\ 0 <= 1 /\ 1 <= 2 ^ 1023
  /\ exists a c, count_keys 4 3 1 = Return a
                 /\ count_keys_macs_and_en1303 4 3 1 = Return c /\ c <= a.
Proof.
  split; [lia|]. split; [lia|]. split; [lia|]. split; [lia|]. split; [lia|].
  apply (adjacency_bounds_constrained 4 3 1); lia.
Defined.

(** C5. For fixed [n >= 0] and [d >= 1] and [macs1 <= macs2], the integer
    [count_keys] returns at [macs1] is at most the one at [macs2] (both
    within 2^1023 in absolute value); so it is for
    [count_keys_macs_and_en1303] when [n] is from 1 to 2^53, while at
    [n = 0] that function raises [UnboundLocalError] for every [macs]. *)
Theorem counts_monotone_in_macs (n d macs1 macs2 : Z) :
  0 <= n -> 1 <= d -> macs1 <= macs2 ->
  (Z.abs macs1 <= 2 ^ 1023 -> Z.abs macs2 <= 2 ^ 1023 ->
     exists a1 a2, count_keys n d macs1 = Return a1
                   /\ count_keys n d macs2 = Return a2 /\ a1 <= a2)
  /\ (1 <= n -> n <= 2 ^ 53 ->
        exists c1 c2, count_keys_macs_and_en1303 n d macs1 = Return c1
                      /\ count_keys_macs_and_en1303 n d macs2 = Return c2
                      /\ c1 <= c2)
  /\ (n = 0 -> count_keys_macs_and_en1303 n d macs1 = Raise UnboundLocalError
               /\ count_keys_macs_and_en1303 n d macs2 = Raise UnboundLocalError).
Proof.
  intros Hn Hd Hm. split; [|split].
  - intros _ _. exists (count_macs n d macs1), (count_macs n d macs2).
    split; [apply count_keys_count_macs; lia|].
    split; [apply count_keys_count_macs; lia|].
    apply count_if_mono. intros t _. by apply macs_ok_mono.
  - intros Hn1 Hn'. exists (count_valid n d macs1), (count_valid n d macs2).
    split; [by apply count_constrained_valid|].
    split; [by apply count_constrained_valid|].
    apply count_if_mono. intros t _. by apply valid_mono.
  - intros ->. split; by apply count_zero_unbound.
Qed.

Lemma counts_monotone_in_macs_witness :
  0 <= 4 /\ 4 <= 2 ^ 53 /\ 1 <= 3 /\ 1 <= 2
  /\ exists c1 c2, count_keys_macs_and_en1303 4 3 1 = Return c1
                   /\ count_keys_macs_and_en1303 4 3 2 = Return c2 /\ c1 <= c2.
Proof.
  split; [lia|]. split; [lia|]. split; [lia|]. split; [lia|].
  apply (counts_monotone_in_macs 4 3 1 2); lia.
Defined.

(** C6. At [n = 0], [count_keys] returns 1 for every [d] and [macs].
    [count_keys_macs_and_en1303] does not: its loop leaves the one initial
    state with its one path, whose sum is 1, but the call raises
    [UnboundLocalError] before that sum is returned. *)
Theorem base_case (d macs : Z) :
  count_keys 0 d macs = Return 1
  /\ count_keys_macs_and_en1303 0 d macs = Raise UnboundLocalError
  /\ exists L, levels 0 d macs 0 = Return L
               /\ pbar2 L = None
               /\ pysum (values (paths L)) = 1.
Proof.
  split; [done|]. split; [by apply count_zero_unbound|].
  exists (initial_locals 0 d). split; [done|]. split; [done|].
  simpl. unfold values. by rewrite map_to_list_singleton.
Qed.

(** C7. With a single depth and [macs >= 0], for every [n >= 1]
    [count_keys] returns 1 (for [macs <= 2^1023]) and, up to [n = 2^53],
    [count_keys_macs_and_en1303] returns 0: the only sequence is [n] times
    the depth 0, whose frequency [n] is more than [n / 2] (and which
    repeats the depth three times in a row as soon as [n >= 3]), while all
    its adjacent cuts are equal. *)
Theorem single_depth (n macs : Z) :
  1 <= n -> 0 <= macs ->
  (n <= 2 ^ 53 -> count_keys_macs_and_en1303 n 1 macs = Return 0)
  /\ (macs <= 2 ^ 1023 -> count_keys n 1 macs = Return 1)
  /\ product (range 1) (Z.to_nat n) = [replicate (Z.to_nat n) 0]
  /\ freq 0 (replicate (Z.to_nat n) 0) = n
  /\ freq_ok n (replicate (Z.to_nat n) 0) = false
  /\ (3 <= n -> no_triple (replicate (Z.to_nat n) 0) = false).
Proof.
  intros Hn Hm.
  assert (Hprod : product (range 1) (Z.to_nat n) = [replicate (Z.to_nat n) 0])
    by apply (product_singleton 0).
  assert (Hfreq : freq_ok n (replicate (Z.to_nat n) 0) = false)
    by (apply freq_ok_replicate; lia).
  split; [|split; [|split; [done|split; [|split; [done|]]]]].
  - intros Hn'. rewrite count_constrained_valid by done. f_equal.
    unfold count_valid. rewrite Hprod, count_if_cons, count_if_nil.
    unfold valid. by rewrite Hfreq.
  - intros _. rewrite count_keys_count_macs by lia. f_equal.
    unfold count_macs. rewrite Hprod, count_if_cons, count_if_nil.
    by rewrite macs_ok_replicate.
  - rewrite freq_replicate. lia.
  - intros Hn3. apply no_triple_replicate. lia.
Qed.

Lemma single_depth_witness :
  1 <= 5 /\ 0 <= 2 /\ 5 <= 2 ^ 53 /\ 2 <= 2 ^ 1023
  /\ count_keys_macs_and_en1303 5 1 2 = Return 0 /\ count_keys 5 1 2 = Return 1.
Proof.
  split; [lia|]. split; [lia|]. split; [lia|]. split; [lia|].
  split; apply (single_depth 5 2); lia.
Defined.

(** C8. For [n <= 2^53], after [i] levels, [0 <= i <= n], every id of the
    table of path counts names a state whose frequencies sum to at most
    [i], itself at most [n], and are each at most [n / 2], hence at most
    the ceiling of [n / 2]; and every state [neighbors] yields from a
    state of a key of length [k] that meets the invariant meets it for
    length [k + 1]. *)
Theorem frequency_invariant (n d macs i : Z) :
  0 <= i <= n -> n <= 2 ^ 53 ->
  (exists L, levels n d macs i = Return L
     /\ forall id w, paths L !! id = Some w ->
          exists st, id_to_state L !! id = Some st
            /\ pysum st.1 <= i /\ i <= n
            /\ Forall (fun f => 2 * f <= n /\ f <= (n + 1) / 2) st.1)
  /\ (forall k u vs s,
        state_inv n d k u -> neighbors n d macs u = Return vs -> s ∈ vs ->
        state_inv n d (k + 1) s).
Proof.
  intros Hi Hn'. assert (Hx : Z.abs n <= 2 ^ 53) by lia. split.
  - destruct (levels_rep n d macs (Z.to_nat i)) as (L & T & Hrun & HL & Hinv & _);
      [lia|done|].
    rewrite Z2Nat.id in Hrun, Hinv by lia.
    exists L. split; [done|]. intros id w Hw.
    destruct HL as [_ Hst Hp]. rewrite Hp, lookup_map_seq_0 in Hw.
    apply list_lookup_fmap_Some in Hw as ([st w'] & _ & Hid).
    exists st. rewrite Hst, lookup_map_seq_0, list_lookup_fmap, Hid.
    split; [done|].
    assert (Hin : st ∈ T.*1).
    { apply list_elem_of_fmap. exists (st, w'). split; [done|].
      by eapply list_elem_of_lookup_2. }
    destruct (proj1 (Forall_forall _ _) Hinv st Hin) as (_ & Hsum & Hall).
    split; [lia|]. split; [lia|].
    eapply Forall_impl; [exact Hall|]. intros f [? ?]. split; [done|].
    apply Z.div_le_lower_bound; lia.
  - intros k u vs s Hu Hvs Hs.
    rewrite (neighbors_transitions n d macs u Hx (proj1 Hu)) in Hvs.
    injection Hvs as <-. by eapply transitions_inv.
Qed.

Lemma frequency_invariant_witness :
  0 <= 2 <= 4 /\ 4 <= 2 ^ 53
  /\ exists L, levels 4 3 1 2 = Return L
       /\ forall id w, paths L !! id = Some w ->
            exists st, id_to_state L !! id = Some st
              /\ pysum st.1 <= 2 /\ 2 <= 4
              /\ Forall (fun f => 2 * f <= 4 /\ f <= (4 + 1) / 2) st.1.
Proof.
  split; [lia|]. split; [lia|]. apply (frequency_invariant 4 3 1 2); lia.
Defined.

(** C9. For [n] from 0 to 2^53 the outer loop completes without an
    exception after exactly [n] levels, one update of [pbar1] each; for
    [n >= 1] the call then returns an integer, and when the queue of some
    level is empty, the tables of every later level are empty and the call
    returns 0.  At [n = 0] the call does not return: it raises
    [UnboundLocalError] after the loop. *)
Theorem search_terminates (n d macs : Z) :
  0 <= n -> n <= 2 ^ 53 ->
  (exists L, levels n d macs n = Return L /\ n_done (pbar1 L) = n)
  /\ (1 <= n -> returns_integer (count_keys_macs_and_en1303 n d macs))
  /\ (n = 0 -> count_keys_macs_and_en1303 n d macs = Raise UnboundLocalError)
  /\ (forall i L, 0 <= i <= n -> levels n d macs i = Return L -> q L = [] ->
        (forall j, i <= j ->
           exists L', levels n d macs j = Return L' /\ q L' = []
                      /\ id_to_state L' = ∅ /\ paths L' = ∅)
        /\ count_keys_macs_and_en1303 n d macs = Return 0).
Proof.
  intros Hn Hn'. split; [|split; [|split]].
  - destruct (levels_rep n d macs (Z.to_nat n) Hn Hn')
      as (L & T & Hrun & _ & _ & _ & Hbar & _).
    rewrite Z2Nat.id in Hrun, Hbar by lia. eauto.
  - intros Hn1. eexists. by apply count_constrained_valid.
  - intros ->. by apply count_zero_unbound.
  - intros i L Hi Hrun Hq.
    assert (Hlater : forall j, i <= j ->
              exists L', levels n d macs j = Return L' /\ q L' = []
                         /\ id_to_state L' = ∅ /\ paths L' = ∅).
    { intros j Hj. rewrite <- (Z2Nat.id i) in Hrun by lia.
      destruct (levels_empty n d macs (Z.to_nat i) (Z.to_nat (j - i)) L
                  Hn Hn' Hrun Hq) as (L' & Hrun' & ?).
      exists L'. split; [|done]. rewrite <- Hrun'. f_equal. lia. }
    split; [done|].
    destruct (Hlater n) as (L' & Hrun' & _ & _ & Hp); [lia|].
    destruct (levels_rep n d macs (Z.to_nat n) Hn Hn')
      as (L0 & _ & Hrun0 & _ & _ & _ & _ & Hbar).
    rewrite Z2Nat.id, Hrun' in Hrun0 by lia. injection Hrun0 as <-.
    unfold count_keys_macs_and_en1303. rewrite Hrun'. simpl.
    destruct (pbar2 L') as [p|] eqn:Hp2.
    + by rewrite Hp, values_empty.
    + exfalso. assert (n = 0) as -> by (destruct Hbar as [Hbar _]; specialize (Hbar eq_refl); lia).
      assert (i = 0) as -> by lia. unfold levels in Hrun. simpl in Hrun.
      injection Hrun as <-. done.
Qed.

Lemma search_terminates_witness :
  0 <= 3 /\ 3 <= 2 ^ 53
  /\ exists L, levels 3 2 1 3 = Return L /\ n_done (pbar1 L) = 3.
Proof.
  split; [lia|]. split; [lia|]. apply (search_terminates 3 2 1); lia.
Defined.

(** C10. [brute(0, d, macs)] returns 1 for every [d] and [macs]: the
    product of no factors is the one empty tuple, and [good] accepts it. *)
Theorem brute_base_case (d macs : Z) :
  brute 0 d macs = Return 1
  /\ product (range d) 0 = [[]]
  /\ good 0 macs [] = Return true.
Proof. done. Qed.

(** * Further properties of the code *)

(** ** The predicate [good], position by position *)

Lemma macs_ok_lookup (macs : Z) (t : list Z) :
  macs_ok macs t = true
  <-> forall i x y, t !! i = Some x -> t !! S i = Some y -> Z.abs (x - y) <= macs.
Proof.
  induction t as [|a r IH]; [done|].
  destruct r as [|b r].
  - split; [|done]. intros _ i x y _ Hy. by destruct i.
  - change (macs_ok macs (a :: b :: r))
      with ((Z.abs (a - b) <=? macs) && macs_ok macs (b :: r)).
    rewrite andb_true_iff, Z.leb_le, IH. split.
    + intros [Hab Hr] [|i] x y Hx Hy.
      * simpl in Hx, Hy. by simplify_eq.
      * by apply (Hr i).
    + intros H. split; [by apply (H 0%nat)|].
      intros i x y Hx Hy. by apply (H (S i)).
Qed.

Lemma no_triple_lookup (t : list Z) :
  no_triple t = true
  <-> forall i x, t !! i = Some x -> t !! S i = Some x -> t !! S (S i) = Some x -> False.
Proof.
  induction t as [|a r IH]; [done|].
  destruct r as [|b [|c r]].
  - split; [|done]. intros _ i x _ Hy. by destruct i.
  - split; [|done]. intros _ [|[|i]] x _ Hy Hz; done.
  - change (no_triple (a :: b :: c :: r))
      with (negb (bool_decide (a = b) && bool_decide (b = c)) && no_triple (b :: c :: r)).
    rewrite andb_true_iff, negb_true_iff, andb_false_iff, !bool_decide_eq_false, IH.
    split.
    + intros [Habc Hr] [|i] x Hx Hy Hz.
      * simpl in Hx, Hy, Hz. simplify_eq. by destruct Habc.
      * by apply (Hr i x).
    + intros H. split.
      * destruct (decide (a = b)) as [->|?]; [|by left].
        destruct (decide (b = c)) as [->|?]; [|by right].
        exfalso. by apply (H 0%nat c).
      * intros i x Hx Hy Hz. by apply (H (S i) x).
Qed.

(** X1. On a tuple of length [n <= 2^53], [good] raises nothing and
    returns [True] exactly when no depth occurs more than [n / 2] times,
    every two neighbouring cuts differ by at most [macs], and no three
    cuts in a row are equal. *)
Theorem good_characterised (n macs : Z) (t : list Z) :
  Z.of_nat (length t) = n -> n <= 2 ^ 53 ->
  exists r, good n macs t = Return r
    /\ (r = true <->
          (forall c, 2 * freq c t <= n)
          /\ (forall i x y, t !! i = Some x -> t !! S i = Some y ->
                Z.abs (x - y) <= macs)
          /\ (forall i x, t !! i = Some x -> t !! S i = Some x ->
                t !! S (S i) = Some x -> False)).
Proof.
  intros Hlen Hn'. exists (valid n macs t). split; [by apply good_valid|].
  unfold valid. rewrite !andb_true_iff, freq_ok_spec, macs_ok_lookup, no_triple_lookup.
  split.
  - intros [[Hf Hm] Ht]. split; [|done]. intros c.
    destruct (decide (c ∈ t)) as [Hc|Hc]; [by apply Hf|].
    pose proof (freq_nonneg c t). assert (~ 0 < freq c t) by (by rewrite <- freq_pos).
    lia.
  - intros (Hf & Hm & Ht). split; [split|]; [|done..]. intros c _. apply Hf.
Qed.

Lemma good_characterised_witness :
  Z.of_nat (length [0; 1; 1; 0]) = 4 /\ 4 <= 2 ^ 53
  /\ exists r, good 4 1 [0; 1; 1; 0] = Return r.
Proof.
  split; [reflexivity|]. split; [lia|].
  destruct (good_characterised 4 1 [0; 1; 1; 0]) as (r & Hr & _);
    [reflexivity|lia|].
  exists r. exact Hr.
Defined.

(** X2. On a tuple shorter than [n], [good] raises [IndexError]: its first
    loop reads [t[i]] for every [i] below [n]. *)
Theorem good_short_tuple (n macs : Z) (t : list Z) :
  Z.of_nat (length t) < n -> good n macs t = Raise IndexError.
Proof.
  intros Hlen. unfold good, range.
  replace n with (Z.of_nat (length t) + (n - Z.of_nat (length t))) at 1 by lia.
  rewrite seqZ_app by lia. rewrite for_each_app.
  pose proof (tally_loop t) as Hloop. unfold range in Hloop. rewrite Hloop, bind_Return.
  rewrite (seqZ_cons (0 + Z.of_nat (length t))) by lia. rewrite for_each_cons.
  replace (getitem t (0 + Z.of_nat (length t))) with (@Raise Z IndexError); [done|].
  unfold getitem. destruct (Z.ltb_spec (0 + Z.of_nat (length t)) 0) as [?|_]; [lia|].
  destruct (Z.ltb_spec (0 + Z.of_nat (length t)) 0) as [?|_]; [lia|].
  rewrite lookup_ge_None_2; [done|]. lia.
Qed.

Lemma good_short_tuple_witness :
  Z.of_nat (length [0; 1]) < 3 /\ good 3 1 [0; 1] = Raise IndexError.
Proof.
  split; [simpl; lia|]. apply good_short_tuple. simpl. lia.
Defined.

(** ** What [neighbors] yields *)

(** X3. For [|n| <= 2^53], from a state whose table has [d] frequencies,
    [neighbors] raises nothing and yields at most [d] states, no state
    twice, none at all once the frequencies sum to [n]; each yielded state
    keeps the old last cut as its last-but-one, ends in a depth of
    [range(d)], and has one more cut counted in a table of the same
    length. *)
Theorem neighbors_yields (n d macs : Z) (st : state) :
  Z.abs n <= 2 ^ 53 ->
  length st.1 = Z.to_nat d ->
  exists vs, neighbors n d macs st = Return vs
    /\ NoDup vs
    /\ (length vs <= Z.to_nat d)%nat
    /\ (pysum st.1 = n -> vs = [])
    /\ forall v, v ∈ vs ->
         v.2.1 = st.2.2
         /\ (exists b, 0 <= b < d /\ v.2.2 = Some b)
         /\ length v.1 = length st.1
         /\ pysum v.1 = pysum st.1 + 1.
Proof.
  intros Hx Hlen. exists (transitions n d macs st).
  split; [by apply neighbors_transitions|].
  destruct st as [freqs [d1 d2]]. unfold transitions. simpl in *.
  case_bool_decide as Hsum.
  { split; [constructor|]. split; [simpl; lia|]. split; [done|].
    by intros v ?%elem_of_nil. }
  split; [|split; [|split; [done|]]].
  - apply NoDup_fmap_2.
    + intros b1 b2 Hb. unfold successor in Hb. by simplify_eq.
    + apply NoDup_filter, NoDup_seqZ.
  - rewrite length_fmap. etransitivity; [apply length_filter|].
    unfold range. by rewrite length_seqZ.
  - intros v (b & -> & Hb)%list_elem_of_fmap.
    apply list_elem_of_filter in Hb as [_ Hb%elem_of_range].
    assert (Hlt : (Z.to_nat b < length freqs)%nat) by lia.
    destruct (lookup_lt_is_Some_2 _ _ Hlt) as [fb Hfb].
    unfold successor. cbn beta iota delta [fst snd].
    rewrite (nth_lookup_Some _ _ 0 _ Hfb).
    split; [done|]. split; [by exists b|]. split; [by rewrite length_insert|].
    rewrite (pysum_insert _ _ fb) by done. lia.
Qed.

Lemma neighbors_yields_witness :
  Z.abs 4 <= 2 ^ 53 /\ length (initial_state 3).1 = Z.to_nat 3
  /\ exists vs, neighbors 4 3 1 (initial_state 3) = Return vs /\ NoDup vs.
Proof.
  split; [lia|]. split; [reflexivity|].
  destruct (neighbors_yields 4 3 1 (initial_state 3)) as (vs & Hvs & Hnd & _);
    [lia|reflexivity|].
  exists vs. split; [exact Hvs|exact Hnd].
Defined.

(** ** One visit of the search *)

(** X4. When the tables under construction are consistent, visiting a
    state [v] with [w] paths leaves [v] with an id that maps back to [v],
    adds [w] to the paths of that id alone, and keeps every id given
    before; a state not seen before gets the next free id, which is put at
    the end of the queue, and a state seen before leaves the queue as it
    was. *)
Theorem visit_roundtrip (w : Z) (F : frontier) (T : table) (v : state) :
  frontier_rep F T ->
  exists id, new_state_to_id (visit w F v) !! v = Some id
    /\ new_id_to_state (visit w F v) !! id = Some v
    /\ dd_get (new_paths (visit w F v)) id = dd_get (new_paths F) id + w
    /\ (forall id', id' <> id ->
          new_paths (visit w F v) !! id' = new_paths F !! id')
    /\ (forall v' id', new_state_to_id F !! v' = Some id' ->
          new_state_to_id (visit w F v) !! v' = Some id')
    /\ (new_state_to_id F !! v = None ->
          id = length (new_q F) /\ new_q (visit w F v) = new_q F ++ [id])
    /\ (is_Some (new_state_to_id F !! v) -> new_q (visit w F v) = new_q F).
Proof.
  intros [Hq Hids Hsize Hst Hp]. unfold visit.
  destruct (new_state_to_id F !! v) as [k|] eqn:Hv.
  - exists k. simpl. split; [done|]. split.
    { rewrite Hst, lookup_map_seq_0. by apply Hids. }
    split. { unfold dd_add, dd_get at 1. by rewrite lookup_insert_eq. }
    split. { intros id' Hne. unfold dd_add. by rewrite lookup_insert_ne. }
    split; [done|]. split; [done|]. done.
  - exists (size (new_state_to_id F)). simpl. split; [by rewrite lookup_insert_eq|].
    split; [by rewrite lookup_insert_eq|].
    split. { unfold dd_add, dd_get at 1. by rewrite lookup_insert_eq. }
    split. { intros id' Hne. unfold dd_add. by rewrite lookup_insert_ne. }
    split.
    { intros v' id' Hv'. rewrite lookup_insert_ne; [done|]. intros <-. congruence. }
    split.
    { intros _. rewrite Hq, length_seq, Hsize. done. }
    intros [? ?]. done.
Qed.

Lemma visit_roundtrip_witness :
  frontier_rep empty_frontier []
  /\ exists id, new_state_to_id (visit 1 empty_frontier (initial_state 2))
                  !! initial_state 2 = Some id.
Proof.
  split; [apply empty_frontier_rep|].
  destruct (visit_roundtrip 1 empty_frontier [] (initial_state 2) empty_frontier_rep)
    as (id & Hid & _).
  exists id. exact Hid.
Defined.

(** ** What the tables of a level hold *)

Lemma frontier_rep_NoDup (F : frontier) (T : table) : frontier_rep F T -> NoDup T.*1.
Proof.
  intros [_ Hids _ _ _]. apply NoDup_alt. intros i j x Hi Hj.
  apply Hids in Hi, Hj. congruence.
Qed.

Lemma weight_state_is_notin (s : state) (T : table) :
  s ∉ T.*1 -> weight (state_is s) T = 0.
Proof.
  induction T as [|[s' w'] T IH]; [done|]. rewrite fmap_cons, not_elem_of_cons.
  intros [Hne Hs]. rewrite weight_cons, IH by done. unfold state_is.
  rewrite bool_decide_eq_false_2 by done. lia.
Qed.

Lemma weight_state_is (s : state) (w : Z) (T : table) (i : nat) :
  NoDup T.*1 -> T !! i = Some (s, w) -> weight (state_is s) T = w.
Proof.
  revert i. induction T as [|[s' w'] T IH]; intros i Hnd Hi; [done|].
  rewrite fmap_cons in Hnd. apply NoDup_cons in Hnd as [Hs' Hnd].
  rewrite weight_cons. destruct i as [|i]; simpl in Hi.
  - injection Hi as -> ->. rewrite weight_state_is_notin by done.
    unfold state_is. rewrite bool_decide_eq_true_2 by done. lia.
  - rewrite (IH i) by done. unfold state_is.
    rewrite bool_decide_eq_false_2; [lia|]. intros ->. apply Hs'.
    apply list_elem_of_fmap. exists (s, w). split; [done|].
    by eapply list_elem_of_lookup_2.
Qed.

Lemma search_full (n d macs k : Z) (L : locals) (T : table) :
  Z.abs n <= 2 ^ 53 ->
  locals_rep L T ->
  Forall (state_inv n d k) T.*1 ->
  exists F' T',
    search n d macs L = Return F'
    /\ frontier_rep F' T'
    /\ (forall f, weight f T'
                  = weight (fun u => pysum (f <$> transitions n d macs u)) T)
    /\ (forall s, s ∈ T'.*1 -> exists u, u ∈ T.*1 /\ s ∈ transitions n d macs u).
Proof.
  intros Hx HL Hinv.
  destruct (search_loop n d macs k L T (reverse (seq 0 (length T)))
              empty_frontier [] Hx HL Hinv) as (F' & T' & Hrun & HF' & Hw & Hs).
  { apply Forall_forall. intros i Hi%elem_of_reverse%elem_of_seq. lia. }
  { apply empty_frontier_rep. }
  exists F', T'. split; [|split; [done|split]].
  - unfold search. by rewrite (lrep_q _ _ HL).
  - intros f. rewrite Hw, weight_nil, Z.add_0_l.
    rewrite fmap_reverse, pysum_reverse.
    rewrite (fmap_lookup_seq T (fun o => match o with
        | Some (u, w) => w * pysum (f <$> transitions n d macs u)
        | None => 0 end)).
    unfold weight. f_equal. apply list_fmap_ext. by intros _ [u w] _.
  - intros s Hin. by destruct (Hs s Hin) as [?%elem_of_nil|?].
Qed.

Lemma level_full (n d macs k i : Z) (L : locals) (T : table) :
  Z.abs n <= 2 ^ 53 ->
  locals_rep L T ->
  Forall (state_inv n d k) T.*1 ->
  exists L' T',
    level n d macs L i = Return L'
    /\ locals_rep L' T'
    /\ NoDup T'.*1
    /\ (forall f, weight f T'
                  = weight (fun u => pysum (f <$> transitions n d macs u)) T)
    /\ (forall s, s ∈ T'.*1 -> exists u, u ∈ T.*1 /\ s ∈ transitions n d macs u).
Proof.
  intros Hx HL Hinv.
  destruct (search_full n d macs k L T Hx HL Hinv) as (F' & T' & Hrun & HF' & Hw & Hs).
  pose proof (frontier_rep_NoDup _ _ HF') as Hnd.
  destruct HF' as [Hq _ _ Hst Hp].
  eexists _, T'. split; [|split; [|done]].
  - unfold level. rewrite Hrun. simpl. reflexivity.
  - by constructor.
Qed.

Lemma pysum_product_snoc (pool : list Z) (r : nat) (g : list Z -> Z) :
  pysum (g <$> product pool (S r))
  = pysum ((fun t => pysum ((fun x => g (t ++ [x])) <$> pool)) <$> product pool r).
Proof.
  revert g. induction r as [|r IH]; intros g.
  - rewrite product_S, pysum_bind. simpl product.
    rewrite fmap_cons, pysum_cons. simpl. rewrite pysum_nil, Z.add_0_r.
    apply pysum_fmap_ext. intros x _. by rewrite pysum_cons, pysum_nil, Z.add_0_r.
  - etransitivity.
    { rewrite (product_S pool (S r)), pysum_bind.
      apply pysum_fmap_ext. intros x _.
      rewrite <- list_fmap_compose. apply (IH (g ∘ cons x)). }
    rewrite (product_S pool r), pysum_bind.
    apply pysum_fmap_ext. intros x _. by rewrite <- list_fmap_compose.
Qed.

Lemma elem_of_product (pool : list Z) (r : nat) (t : list Z) :
  t ∈ product pool r <-> length t = r /\ Forall (fun x => x ∈ pool) t.
Proof.
  split; [intros Ht; split; [by eapply length_product|by eapply Forall_product]|].
  intros [<- Hall]. induction Hall as [|a t Ha _ IH].
  - by apply list_elem_of_singleton.
  - simpl length. rewrite product_S. apply list_elem_of_bind.
    exists a. split; [|done]. apply list_elem_of_fmap. by exists t.
Qed.

Lemma state_of_inv (n d : Z) (macs : Z) (k : nat) (p : list Z) :
  0 <= n -> p ∈ product (range d) k -> valid n macs p = true ->
  state_inv n d (Z.of_nat k) (state_of d p).
Proof.
  intros Hn [Hlen Hall]%elem_of_product Hv. split; [|split].
  - unfold state_of, range. simpl. by rewrite length_fmap, length_seqZ.
  - rewrite state_of_sum by done. lia.
  - unfold state_of. simpl. apply Forall_fmap, Forall_forall. intros c _. simpl.
    pose proof (freq_nonneg c p). split; [done|].
    destruct (decide (c ∈ p)) as [Hc|Hc].
    + unfold valid in Hv. apply andb_true_iff in Hv as [[Hf _]%andb_true_iff _].
      by apply (proj1 (freq_ok_spec n p) Hf).
    + assert (~ 0 < freq c p) by (by rewrite <- freq_pos). lia.
Qed.

Lemma prefix_sum_step (n d macs : Z) (k : nat) (f : state -> Z) :
  Z.of_nat k < n ->
  prefix_sum n d macs (S k) f
  = prefix_sum n d macs k (fun u => pysum (f <$> transitions n d macs u)).
Proof.
  intros Hk. unfold prefix_sum. rewrite pysum_product_snoc.
  apply pysum_fmap_ext. intros p Hp.
  pose proof Hp as [Hlen Hall]%elem_of_product.
  destruct (valid n macs p) eqn:Hv.
  - unfold transitions.
    rewrite bool_decide_eq_false_2 by (rewrite state_of_sum by done; lia).
    rewrite <- list_fmap_compose, pysum_filter.
    apply pysum_fmap_ext. intros b Hb%elem_of_range.
    rewrite (admissible_state_of n d macs p b Hb). unfold compose.
    rewrite (successor_state_of d p b Hb), valid_snoc, Hv. done.
  - transitivity (pysum ((fun _ => 0) <$> range d)); [|apply pysum_fmap_zero].
    apply pysum_fmap_ext. intros b _. by rewrite valid_snoc, Hv.
Qed.

Lemma transitions_of_valid (n d macs : Z) (k : nat) (p : list Z) (s : state) :
  Z.of_nat k < n ->
  p ∈ product (range d) k -> valid n macs p = true ->
  s ∈ transitions n d macs (state_of d p) ->
  exists p', p' ∈ product (range d) (S k) /\ valid n macs p' = true
             /\ state_of d p' = s.
Proof.
  intros Hk Hp Hv. pose proof Hp as [Hlen Hall]%elem_of_product.
  unfold transitions.
  rewrite bool_decide_eq_false_2 by (rewrite state_of_sum by done; lia).
  intros (b & -> & Hb)%list_elem_of_fmap.
  apply list_elem_of_filter in Hb as [Hadm Hb].
  pose proof Hb as Hb'%elem_of_range.
  rewrite (admissible_state_of n d macs p b Hb') in Hadm.
  exists (p ++ [b]). split; [|split].
  - apply elem_of_product. split.
    + rewrite length_app. simpl. lia.
    + apply Forall_app. split; [done|]. by apply Forall_singleton.
  - rewrite valid_snoc, Hv. simpl. by apply Is_true_true.
  - symmetry. by apply successor_state_of.
Qed.

Lemma levels_full (n d macs : Z) (k : nat) :
  0 <= n -> n <= 2 ^ 53 -> Z.of_nat k <= n ->
  exists L T,
    levels n d macs (Z.of_nat k) = Return L
    /\ locals_rep L T
    /\ NoDup T.*1
    /\ (forall f, weight f T = prefix_sum n d macs k f)
    /\ (forall s, s ∈ T.*1 ->
          exists p, p ∈ product (range d) k /\ valid n macs p = true
                    /\ state_of d p = s).
Proof.
  intros Hn Hn'. assert (Hx : Z.abs n <= 2 ^ 53) by lia.
  induction k as [|k IH]; intros Hk.
  - exists (initial_locals n d), [(initial_state d, 1)].
    split; [done|]. split; [|split; [|split]].
    + constructor; simpl; [done| |]; by rewrite insert_empty.
    + simpl. apply NoDup_singleton.
    + intros f. rewrite weight_cons, weight_nil. unfold prefix_sum. simpl.
      rewrite pysum_cons, pysum_nil, state_of_nil. lia.
    + intros s ->%list_elem_of_singleton. exists []. split; [by left|].
      split; [done|apply state_of_nil].
  - destruct IH as (L & T & Hrun & HL & Hnd & Hw & Hmem); [lia|].
    assert (Hinv : Forall (state_inv n d (Z.of_nat k)) T.*1).
    { apply Forall_forall. intros s Hs.
      destruct (Hmem s Hs) as (p & Hp & Hv & <-). by eapply state_of_inv. }
    destruct (level_full n d macs (Z.of_nat k) (Z.of_nat k) L T Hx HL Hinv)
      as (L' & T' & Hlev & HL' & Hnd' & Hw' & Hmem').
    exists L', T'. split; [|split; [done|split; [done|split]]].
    + by rewrite levels_S, Hrun.
    + intros f. rewrite Hw', Hw, prefix_sum_step; [done|lia].
    + intros s Hs. destruct (Hmem' s Hs) as (u & Hu & Hsu).
      destruct (Hmem u Hu) as (p & Hp & Hv & <-).
      eapply transitions_of_valid; [|done..]. lia.
Qed.

Lemma count_if_pos {A : Type} (P : A -> bool) (l : list A) (x : A) :
  x ∈ l -> P x = true -> 1 <= count_if P l.
Proof.
  induction 1 as [x l|x y l _ IH]; intros HP; rewrite count_if_cons.
  - rewrite HP. pose proof (count_if_nonneg P l). lia.
  - specialize (IH HP). destruct (P y); lia.
Qed.

Lemma prefix_sum_state_is (n d macs : Z) (k : nat) (s : state) :
  prefix_sum n d macs k (state_is s)
  = count_if (fun p => valid n macs p && bool_decide (state_of d p = s))
             (product (range d) k).
Proof.
  unfold prefix_sum. rewrite count_if_pysum. apply pysum_fmap_ext.
  intros p _. unfold state_is. by destruct (valid n macs p).
Qed.

(** The tables after [k] levels, in full. *)
Lemma levels_meaning (n d macs : Z) (k : nat) :
  0 <= n -> n <= 2 ^ 53 -> Z.of_nat k <= n ->
  exists L T,
    levels n d macs (Z.of_nat k) = Return L
    /\ locals_rep L T
    /\ NoDup T.*1
    /\ (forall i s w, T !! i = Some (s, w) ->
          w = count_if (fun p => valid n macs p && bool_decide (state_of d p = s))
                       (product (range d) k)
          /\ 1 <= w)
    /\ (forall p, p ∈ product (range d) k -> valid n macs p = true ->
          state_of d p ∈ T.*1).
Proof.
  intros Hn Hn' Hk.
  destruct (levels_full n d macs k Hn Hn' Hk) as (L & T & Hrun & HL & Hnd & Hw & Hmem).
  exists L, T. split; [done|]. split; [done|]. split; [done|]. split.
  - intros i s w Hi.
    assert (Hws : w = count_if (fun p => valid n macs p && bool_decide (state_of d p = s))
                               (product (range d) k)).
    { rewrite <- prefix_sum_state_is, <- Hw. symmetry. by eapply weight_state_is. }
    split; [done|]. rewrite Hws.
    destruct (Hmem s) as (p & Hp & Hv & Hs).
    { apply list_elem_of_fmap. exists (s, w). split; [done|].
      by eapply list_elem_of_lookup_2. }
    apply (count_if_pos _ _ p Hp). cbv beta. rewrite Hv. simpl.
    by apply bool_decide_eq_true_2.
  - intros p Hp Hv. destruct (decide (state_of d p ∈ T.*1)) as [?|Hnot]; [done|].
    exfalso. pose proof (weight_state_is_notin _ _ Hnot) as H0.
    rewrite Hw, prefix_sum_state_is in H0.
    pose proof (count_if_pos (fun p' => valid n macs p'
                                && bool_decide (state_of d p' = state_of d p))
                  _ p Hp) as H1.
    cbv beta in H1. rewrite Hv, bool_decide_eq_true_2 in H1 by done.
    specialize (H1 eq_refl). lia.
Qed.

(** X5. For [n <= 2^53], after [k] levels, [0 <= k <= n], the loop has
    raised nothing, the queue holds the ids 0, 1, ... in order,
    [id_to_state] and [paths] have exactly the queue's ids as keys, no
    state has two ids, and every path count is at least 1. *)
Theorem level_tables_consistent (n d macs k : Z) :
  0 <= k <= n -> n <= 2 ^ 53 ->
  exists L, levels n d macs k = Return L
    /\ q L = seq 0 (length (q L))
    /\ (forall id, is_Some (id_to_state L !! id) <-> (id < length (q L))%nat)
    /\ (forall id, is_Some (paths L !! id) <-> (id < length (q L))%nat)
    /\ (forall id1 id2 st, id_to_state L !! id1 = Some st ->
          id_to_state L !! id2 = Some st -> id1 = id2)
    /\ (forall id w, paths L !! id = Some w -> 1 <= w).
Proof.
  intros Hk Hn'.
  destruct (levels_meaning n d macs (Z.to_nat k))
    as (L & T & Hrun & [Hq Hst Hp] & Hnd & Hcnt & _); [lia..|].
  rewrite Z2Nat.id in Hrun by lia.
  assert (Hlen : length (q L) = length T) by (by rewrite Hq, length_seq).
  exists L. split; [done|]. split; [by rewrite Hlen|].
  split; [|split; [|split]].
  - intros id. rewrite Hst, lookup_map_seq_0, Hlen, <- (length_fmap fst T).
    apply lookup_lt_is_Some.
  - intros id. rewrite Hp, lookup_map_seq_0, Hlen, <- (length_fmap snd T).
    apply lookup_lt_is_Some.
  - intros id1 id2 st. rewrite Hst, !lookup_map_seq_0.
    by apply (proj1 (NoDup_alt _) Hnd).
  - intros id w. rewrite Hp, lookup_map_seq_0.
    intros ([s w'] & -> & Hi)%list_lookup_fmap_Some. by eapply Hcnt.
Qed.

Lemma level_tables_consistent_witness :
  0 <= 2 <= 4 /\ 4 <= 2 ^ 53
  /\ exists L, levels 4 3 1 2 = Return L /\ q L = seq 0 (length (q L)).
Proof.
  split; [lia|]. split; [lia|].
  destruct (level_tables_consistent 4 3 1 2) as (L & HL & Hq & _); [lia..|].
  exists L. split; [exact HL|exact Hq].
Defined.

(** X6. For [n <= 2^53], after [k] levels, [0 <= k <= n], the path count
    of each state is the number of sequences of [k] depths that pass the
    three checks of the oracle (frequencies against [n / 2], adjacent
    cuts, no three in a row) and end in that state, and the state of every
    such sequence has an id. *)
Theorem path_counts_meaning (n d macs k : Z) :
  0 <= k <= n -> n <= 2 ^ 53 ->
  exists L, levels n d macs k = Return L
    /\ (forall id st, id_to_state L !! id = Some st ->
          paths L !! id
          = Some (count_if (fun p => valid n macs p && bool_decide (state_of d p = st))
                           (product (range d) (Z.to_nat k))))
    /\ (forall p, p ∈ product (range d) (Z.to_nat k) -> valid n macs p = true ->
          exists id, id_to_state L !! id = Some (state_of d p)).
Proof.
  intros Hk Hn'.
  destruct (levels_meaning n d macs (Z.to_nat k))
    as (L & T & Hrun & [Hq Hst Hp] & Hnd & Hcnt & Hall); [lia..|].
  rewrite Z2Nat.id in Hrun by lia.
  exists L. split; [done|]. split.
  - intros id st. rewrite Hst, Hp, !lookup_map_seq_0.
    intros ([s w] & Hs & Hi)%list_lookup_fmap_Some. simpl in Hs. subst s.
    rewrite list_lookup_fmap, Hi. simpl. f_equal. by eapply Hcnt.
  - intros p Hp' Hv. rewrite Hst.
    destruct (proj1 (list_elem_of_lookup _ _) (Hall p Hp' Hv)) as [id Hid].
    exists id. by rewrite lookup_map_seq_0.
Qed.

Lemma path_counts_meaning_witness :
  0 <= 2 <= 4 /\ 4 <= 2 ^ 53
  /\ exists L, levels 4 3 1 2 = Return L
       /\ forall p, p ∈ product (range 3) (Z.to_nat 2) -> valid 4 1 p = true ->
            exists id, id_to_state L !! id = Some (state_of 3 p).
Proof.
  split; [lia|]. split; [lia|].
  destruct (path_counts_meaning 4 3 1 2) as (L & HL & _ & Hall); [lia..|].
  exists L. split; [exact HL|exact Hall].
Defined.

(** ** Bounds and special parameters *)

Lemma pysum_fmap_le {A : Type} (f g : A -> Z) (l : list A) :
  (forall x, x ∈ l -> f x <= g x) -> pysum (f <$> l) <= pysum (g <$> l).
Proof.
  induction l as [|x l IH]; intros Hfg; [done|].
  rewrite !fmap_cons, !pysum_cons.
  assert (f x <= g x) by (apply Hfg; by left).
  assert (pysum (f <$> l) <= pysum (g <$> l))
    by (apply IH; intros; apply Hfg; by right).
  lia.
Qed.

Lemma pysum_fmap_const {A : Type} (c : Z) (l : list A) :
  pysum ((fun _ => c) <$> l) = Z.of_nat (length l) * c.
Proof.
  induction l as [|x l IH]; [done|].
  rewrite fmap_cons, pysum_cons, IH. simpl length. lia.
Qed.

Lemma count_if_le_length {A : Type} (P : A -> bool) (l : list A) :
  count_if P l <= Z.of_nat (length l).
Proof.
  induction l as [|x l IH]; [done|].
  rewrite count_if_cons. simpl length. destruct (P x); lia.
Qed.

Lemma count_if_all {A : Type} (P : A -> bool) (l : list A) :
  (forall x, x ∈ l -> P x = true) -> count_if P l = Z.of_nat (length l).
Proof.
  induction l as [|x l IH]; intros HP; [done|].
  rewrite count_if_cons, IH, HP; [simpl length; lia|by left|].
  intros. apply HP. by right.
Qed.

Lemma product_size (pool : list Z) (r : nat) :
  Z.of_nat (length (product pool r)) = Z.of_nat (length pool) ^ Z.of_nat r.
Proof.
  induction r as [|r IH]; [done|].
  rewrite Nat2Z.inj_succ, Z.pow_succ_r, <- IH by lia.
  rewrite <- (count_if_all (fun _ => true) (product pool (S r))) by done.
  rewrite product_S, count_if_bind.
  rewrite (pysum_fmap_ext _ (fun _ => Z.of_nat (length (product pool r)))).
  - apply pysum_fmap_const.
  - intros x _. rewrite count_if_all by done. by rewrite length_fmap.
Qed.

Lemma range_size (d : Z) : 0 <= d -> Z.of_nat (length (range d)) = d.
Proof. intros Hd. unfold range. rewrite length_seqZ. lia. Qed.

Lemma valid_needs_room (n d macs : Z) (t : list Z) :
  1 <= n -> d * (n / 2) < n ->
  t ∈ product (range d) (Z.to_nat n) -> valid n macs t = false.
Proof.
  intros Hn Hroom [Hlen Hall]%elem_of_product.
  apply not_true_is_false. intros Hv.
  pose proof (state_of_sum d t Hall) as Hsum. unfold state_of in Hsum. simpl in Hsum.
  assert (Hhalf : 0 <= n / 2) by (apply Z.div_pos; lia).
  assert (Hle : pysum ((fun c => freq c t) <$> range d)
                <= pysum ((fun _ => n / 2) <$> range d)).
  { apply pysum_fmap_le. intros c _. pose proof (freq_nonneg c t).
    destruct (decide (c ∈ t)) as [Hc|Hc].
    - unfold valid in Hv. apply andb_true_iff in Hv as [[Hf _]%andb_true_iff _].
      pose proof (proj1 (freq_ok_spec n t) Hf c Hc).
      apply Z.div_le_lower_bound; lia.
    - assert (~ 0 < freq c t) by (by rewrite <- freq_pos). lia. }
  rewrite Hsum, pysum_fmap_const in Hle.
  unfold range in Hle. rewrite length_seqZ in Hle.
  destruct (Z.le_gt_cases 0 d) as [Hd|Hd].
  - rewrite Z2Nat.id in Hle by done. lia.
  - rewrite Z2Nat.nonpos in Hle by lia. simpl in Hle. lia.
Qed.

(** X7. When [d] depths used at most [n / 2] times each cannot fill [n]
    positions, that is [d * floor(n / 2) < n] with [n] from 1 to 2^53, no
    key is legal: [brute] and [count_keys_macs_and_en1303] both return 0.
    This is so for every odd [n] with [d <= 2], and for [n = 1]. *)
Theorem no_room_no_keys (n d macs : Z) :
  1 <= n -> n <= 2 ^ 53 -> d * (n / 2) < n ->
  brute n d macs = Return 0 /\ count_keys_macs_and_en1303 n d macs = Return 0.
Proof.
  intros Hn Hn' Hroom.
  assert (Hzero : count_valid n d macs = 0).
  { apply count_if_false. intros t Ht. by eapply valid_needs_room. }
  split.
  - rewrite brute_count_valid by lia. by rewrite Hzero.
  - rewrite count_constrained_valid by lia. by rewrite Hzero.
Qed.

Lemma no_room_no_keys_witness :
  1 <= 5 /\ 5 <= 2 ^ 53 /\ 2 * (5 / 2) < 5
  /\ brute 5 2 1 = Return 0 /\ count_keys_macs_and_en1303 5 2 1 = Return 0.
Proof.
  split; [lia|]. split; [lia|]. split; [reflexivity|].
  apply (no_room_no_keys 5 2 1); [lia|lia|reflexivity].
Defined.

(** X8. For [n >= 0], [d >= 0] and [|macs| <= 2^1023], [count_keys]
    returns some [a] with [0 <= a <= d ^ n]; up to [n = 2^53], [brute]
    returns some [b] with [0 <= b <= a], and for [n >= 1]
    [count_keys_macs_and_en1303] returns the same [b]. *)
Theorem counts_bounded (n d macs : Z) :
  0 <= n -> 0 <= d -> Z.abs macs <= 2 ^ 1023 ->
  exists a, count_keys n d macs = Return a
    /\ 0 <= a <= d ^ n
    /\ (n <= 2 ^ 53 ->
          exists b, brute n d macs = Return b
            /\ 0 <= b <= a
            /\ (1 <= n -> count_keys_macs_and_en1303 n d macs = Return b)).
Proof.
  intros Hn Hd _. exists (count_macs n d macs).
  split; [by apply count_keys_count_macs|]. split.
  - split; [apply count_if_nonneg|].
    unfold count_macs. etransitivity; [apply count_if_le_length|].
    rewrite product_size, range_size, Z2Nat.id by lia. done.
  - intros Hn'. exists (count_valid n d macs).
    split; [by apply brute_count_valid|]. split.
    + split; [apply count_if_nonneg|].
      apply count_if_mono. intros t _. apply valid_macs_ok.
    + intros Hn1. by apply count_constrained_valid.
Qed.

Lemma counts_bounded_witness :
  0 <= 4 /\ 0 <= 3 /\ Z.abs 1 <= 2 ^ 1023 /\ 4 <= 2 ^ 53
  /\ exists a b, count_keys 4 3 1 = Return a /\ brute 4 3 1 = Return b
                 /\ 0 <= b <= a /\ a <= 3 ^ 4.
Proof.
  split; [lia|]. split; [lia|]. split; [lia|]. split; [lia|].
  destruct (counts_bounded 4 3 1) as (a & Ha & [_ Hpow] & Hb); [lia..|].
  destruct Hb as (b & Hb & Hab & _); [lia|].
  exists a, b. split; [exact Ha|]. split; [exact Hb|]. split; [exact Hab|exact Hpow].
Defined.

Lemma macs_ok_wide (d macs : Z) (t : list Z) :
  d - 1 <= macs -> Forall (fun x => x ∈ range d) t -> macs_ok macs t = true.
Proof.
  intros Hm. induction 1 as [|a r Ha Hr IH]; [done|].
  destruct r as [|b r]; [done|].
  change (macs_ok macs (a :: b :: r))
    with ((Z.abs (a - b) <=? macs) && macs_ok macs (b :: r)).
  rewrite IH, andb_true_r. apply Z.leb_le.
  apply elem_of_range in Ha. inversion Hr as [|? ? Hb%elem_of_range _]. lia.
Qed.

(** X9. When [macs >= d - 1] the adjacency constraint excludes nothing:
    for [n >= 0] and [d >= 0], [count_keys] returns [d ^ n]. *)
Theorem count_keys_unconstrained (n d macs : Z) :
  0 <= n -> 0 <= d -> d - 1 <= macs ->
  count_keys n d macs = Return (d ^ n).
Proof.
  intros Hn Hd Hm. rewrite count_keys_count_macs by done. f_equal.
  unfold count_macs. rewrite count_if_all.
  - rewrite product_size, range_size, Z2Nat.id by lia. done.
  - intros t [_ Hall]%elem_of_product. by eapply macs_ok_wide.
Qed.

Lemma count_keys_unconstrained_witness :
  0 <= 5 /\ 0 <= 3 /\ 3 - 1 <= 2 /\ count_keys 5 3 2 = Return (3 ^ 5).
Proof.
  split; [lia|]. split; [lia|]. split; [lia|].
  apply count_keys_unconstrained; lia.
Defined.

Lemma for_each_ext {S A : Type} (b1 b2 : S -> A -> result S) (s : S) (l : list A) :
  (forall s' x, x ∈ l -> b1 s' x = b2 s' x) ->
  for_each b1 s l = for_each b2 s l.
Proof.
  revert s. induction l as [|x l IH]; intros s Hb; [done|].
  rewrite !for_each_cons, Hb by left.
  destruct (b2 s x) as [s'|e]; simpl; [|done].
  apply IH. intros. apply Hb. by right.
Qed.

Lemma for_each_inv {S A : Type} (P : S -> Prop) (body : S -> A -> result S)
    (l : list A) (s s' : S) :
  (forall s0 x s1, x ∈ l -> P s0 -> body s0 x = Return s1 -> P s1) ->
  P s -> for_each body s l = Return s' -> P s'.
Proof.
  revert s. induction l as [|x l IH]; intros s Hb Hs; simpl.
  - by intros [= <-].
  - destruct (body s x) as [s1|e] eqn:Hx; simpl; [|done].
    apply IH.
    + intros s0 y s2 Hy. apply Hb. by right.
    + eapply Hb; [by left|done..].
Qed.

(** With [macs >= d - 1] the adjacency check of [good] and of [neighbors]
    never fires, whatever else the call does. *)
Lemma good_macs_wide (n d macs1 macs2 : Z) (t : list Z) :
  Z.of_nat (length t) = n -> Forall (fun x => x ∈ range d) t ->
  d - 1 <= macs1 -> d - 1 <= macs2 ->
  good n macs1 t = good n macs2 t.
Proof.
  intros <- Hall H1 H2. unfold good. rewrite !far_apart_loop.
  by rewrite (macs_ok_wide d macs1), (macs_ok_wide d macs2).
Qed.

Lemma neighbors_macs_wide (n d macs1 macs2 : Z) (st : state) :
  last_in_range d st -> d - 1 <= macs1 -> d - 1 <= macs2 ->
  neighbors n d macs1 st = neighbors n d macs2 st.
Proof.
  destruct st as [freqs [d1 d2]]. unfold last_in_range. simpl.
  intros Hl H1 H2. unfold neighbors. case_bool_decide; [done|].
  apply for_each_ext. intros out b Hb%elem_of_range.
  destruct d2 as [c|]; [|done].
  replace (macs1 <? Z.abs (c - b)) with false by (symmetry; apply Z.ltb_ge; lia).
  replace (macs2 <? Z.abs (c - b)) with false by (symmetry; apply Z.ltb_ge; lia).
  done.
Qed.

Lemma neighbors_last_in_range (n d macs : Z) (st : state) (vs : list state) :
  neighbors n d macs st = Return vs -> Forall (last_in_range d) vs.
Proof.
  destruct st as [freqs [d1 d2]]. unfold neighbors.
  case_bool_decide; [by intros [= <-]|].
  apply (for_each_inv (Forall (last_in_range d))); [|done].
  intros out b out' Hb%elem_of_range Hout.
  destruct (bool_decide (d1 = d2) && bool_decide (d2 = Some b)); [by intros [= <-]|].
  destruct (match d2 with Some c => macs <? Z.abs (c - b) | None => false end);
    [by intros [= <-]|].
  destruct (getitem freqs b) as [fb|e]; simpl; [|done].
  destruct (more_than_half (fb + 1) n) as [[]|e]; simpl; [by intros [= <-]| |done].
  intros [= <-]. apply Forall_app. split; [done|]. by apply Forall_singleton.
Qed.

Lemma visit_last_in_range (d w : Z) (F : frontier) (v : state) :
  map_Forall (fun _ st => last_in_range d st) (new_id_to_state F) ->
  last_in_range d v ->
  map_Forall (fun _ st => last_in_range d st) (new_id_to_state (visit w F v)).
Proof.
  intros HF Hv. unfold visit. destruct (new_state_to_id F !! v); simpl; [done|].
  by apply map_Forall_insert_2.
Qed.

Lemma foldl_visit_last_in_range (d w : Z) (vs : list state) (F : frontier) :
  map_Forall (fun _ st => last_in_range d st) (new_id_to_state F) ->
  Forall (last_in_range d) vs ->
  map_Forall (fun _ st => last_in_range d st)
             (new_id_to_state (foldl (visit w) F vs)).
Proof.
  intros HF Hvs. revert F HF. induction Hvs as [|v vs Hv _ IH]; intros F HF; [done|].
  simpl. apply IH. by apply visit_last_in_range.
Qed.

Lemma search_last_in_range (n d macs : Z) (L : locals) (F : frontier) :
  search n d macs L = Return F ->
  map_Forall (fun _ st => last_in_range d st) (new_id_to_state F).
Proof.
  unfold search.
  apply (for_each_inv
           (fun F => map_Forall (fun _ st => last_in_range d st) (new_id_to_state F)));
    [|apply map_Forall_empty].
  intros F0 u F1 _ HF0. unfold search_step.
  destruct (dict_get (id_to_state L) u) as [st|e]; simpl; [|done].
  destruct (neighbors n d macs st) as [vs|e] eqn:Hvs; simpl; [|done].
  intros [= <-]. apply foldl_visit_last_in_range; [done|].
  by eapply neighbors_last_in_range.
Qed.

Lemma level_last_in_range (n d macs i : Z) (L L' : locals) :
  level n d macs L i = Return L' ->
  map_Forall (fun _ st => last_in_range d st) (id_to_state L').
Proof.
  unfold level. destruct (search n d macs L) as [F|e] eqn:HF; simpl; [|done].
  intros [= <-]. simpl. by eapply search_last_in_range.
Qed.

Lemma level_macs_wide (n d macs1 macs2 i : Z) (L : locals) :
  d - 1 <= macs1 -> d - 1 <= macs2 ->
  map_Forall (fun _ st => last_in_range d st) (id_to_state L) ->
  level n d macs1 L i = level n d macs2 L i.
Proof.
  intros H1 H2 HL. unfold level, search. f_equal.
  apply for_each_ext. intros F u _. unfold search_step, dict_get.
  destruct (id_to_state L !! u) as [st|] eqn:Hu; [|done].
  rewrite !bind_Return. by rewrite (neighbors_macs_wide n d macs1 macs2 st (HL u st Hu)).
Qed.

Lemma levels_macs_wide (n d macs1 macs2 : Z) (k : nat) :
  d - 1 <= macs1 -> d - 1 <= macs2 ->
  levels n d macs1 (Z.of_nat k) = levels n d macs2 (Z.of_nat k)
  /\ forall L, levels n d macs1 (Z.of_nat k) = Return L ->
       map_Forall (fun _ st => last_in_range d st) (id_to_state L).
Proof.
  intros H1 H2. induction k as [|k [IHeq IHok]].
  - split; [done|]. intros L [= <-]. simpl. by apply map_Forall_singleton.
  - rewrite !levels_S, <- IHeq.
    destruct (levels n d macs1 (Z.of_nat k)) as [L|e]; simpl; [|done].
    rewrite <- (level_macs_wide n d macs1 macs2 (Z.of_nat k) L H1 H2 (IHok L eq_refl)).
    split; [done|]. intros L' HL'. by eapply level_last_in_range.
Qed.

(** X10. Beyond [d - 1] the value of [macs] no longer matters: for
    [macs1, macs2 >= d - 1], [brute] returns the same integer at both
    ([n >= 0]), and so does [count_keys_macs_and_en1303] ([n >= 1]). *)
Theorem macs_saturates (n d macs1 macs2 : Z) :
  0 <= n -> d - 1 <= macs1 -> d - 1 <= macs2 ->
  brute n d macs1 = brute n d macs2
  /\ (1 <= n -> count_keys_macs_and_en1303 n d macs1
               = count_keys_macs_and_en1303 n d macs2).
Proof.
  intros Hn H1 H2. split.
  - unfold brute. destruct (n <? 0); [done|]. unfold count_good.
    apply for_each_ext. intros acc t [Hlen Hall]%elem_of_product.
    rewrite (good_macs_wide n d macs1 macs2 t); [done|lia|done..].
  - intros _. unfold count_keys_macs_and_en1303.
    pose proof (proj1 (levels_macs_wide n d macs1 macs2 (Z.to_nat n) H1 H2)) as Heq.
    rewrite Z2Nat.id in Heq by done. by rewrite Heq.
Qed.

Lemma macs_saturates_witness :
  0 <= 4 /\ 3 - 1 <= 2 /\ 3 - 1 <= 7 /\ brute 4 3 2 = brute 4 3 7.
Proof.
  split; [lia|]. split; [lia|]. split; [lia|].
  apply (macs_saturates 4 3 2 7); lia.
Defined.

Lemma macs_ok_negative (macs : Z) (t : list Z) :
  macs < 0 -> (2 <= length t)%nat -> macs_ok macs t = false.
Proof.
  intros Hm Hlen. destruct t as [|a [|b r]]; [simpl in Hlen; lia..|].
  change (macs_ok macs (a :: b :: r))
    with ((Z.abs (a - b) <=? macs) && macs_ok macs (b :: r)).
  apply andb_false_iff. left. apply Z.leb_gt. lia.
Qed.

(** X11. With a negative [macs] no two cuts can be neighbours: for [n]
    from 2 to 2^53, [brute] and [count_keys_macs_and_en1303] return 0
    whatever [d], and for every [n >= 2] [count_keys] returns 0 when
    [d >= 0] and [macs >= - 2^1023]. *)
Theorem negative_macs (n d macs : Z) :
  2 <= n -> macs < 0 ->
  (n <= 2 ^ 53 ->
     brute n d macs = Return 0
     /\ count_keys_macs_and_en1303 n d macs = Return 0)
  /\ (0 <= d -> - 2 ^ 1023 <= macs -> count_keys n d macs = Return 0).
Proof.
  intros Hn Hm.
  assert (Hno : forall t, t ∈ product (range d) (Z.to_nat n) -> macs_ok macs t = false).
  { intros t [Hlen _]%elem_of_product. apply macs_ok_negative; [done|lia]. }
  assert (Hzero : count_valid n d macs = 0).
  { apply count_if_false. intros t Ht. unfold valid.
    by rewrite (Hno t Ht), andb_false_r. }
  split.
  - intros Hn'. split.
    + rewrite brute_count_valid by lia. by rewrite Hzero.
    + rewrite count_constrained_valid by lia. by rewrite Hzero.
  - intros Hd _. rewrite count_keys_count_macs by lia. f_equal.
    by apply count_if_false.
Qed.

Lemma negative_macs_witness :
  2 <= 3 /\ -1 < 0 /\ 3 <= 2 ^ 53 /\ brute 3 2 (-1) = Return 0.
Proof.
  split; [lia|]. split; [lia|]. split; [lia|].
  apply (negative_macs 3 2 (-1)); lia.
Defined.

(** X12. A key of one cut: [count_keys(1, d, macs)] returns [d] for every
    [d >= 0] and every [macs], even a negative one, since the power 0 of
    the matrix is the identity. *)
Theorem count_keys_one_cut (d macs : Z) :
  0 <= d -> count_keys 1 d macs = Return d.
Proof.
  intros Hd. rewrite count_keys_count_macs by lia. f_equal.
  unfold count_macs. rewrite count_if_all.
  - rewrite product_size, range_size by done. change (Z.to_nat 1) with 1%nat. lia.
  - intros t [Hlen _]%elem_of_product. by destruct t as [|a [|b r]].
Qed.

Lemma count_keys_one_cut_witness : 0 <= 8 /\ count_keys 1 8 (-3) = Return 8.
Proof.
  split; [lia|]. apply count_keys_one_cut. lia.
Defined.
